(** * dash (DAllas SHell): a shallow embedding of [src/dash.c]

    The interpreter turns one input line into built-in commands and
    spawned processes.  This development embeds

    - the C string primitives the source relies on ([strchr], [strtok]),
    - the syntax checks ([check_empty_input], [check_parallel],
      [check_redirect]) and the two tokenizers ([parse_cmds],
      [parse_input]),
    - the built-ins ([dash_exit], [dash_exit2], [dash_cd], [dash_path]),
    - the child side of [exec_command] over a descriptor table, and
    - [process], the driver of one line, as a state-and-trace monad.

    Conventions.  A C string is a [string] (the bytes before the
    terminating NUL); a [char**] array terminated by a null pointer is a
    [list string], and reading the terminator itself is a lookup that
    returns [None].  [int] counters are [Z]: they count characters or
    tokens of one line and stay far below [2^31].  A block obtained from
    [malloc] is taken to be large enough for what is stored in it (the
    five bytes of [slash] among them), with one exception: the block of
    [BUF_SIZE] pointers that [dash_path] fills and never grows is
    modelled by [dash_path_block].  The operating system is a [world]
    of oracles.

    Two assumptions on the environment are built into the model.
    Allocation succeeds: the branches of [parse_input] and [parse_cmds]
    that write the error line and leave through [exit(1)] when [malloc]
    or [realloc] fails are not modelled.  A call of [waitpid] comes
    back: an [EWait] event records that the call is made on a slot, and
    the interpreter goes on after it, which the source does when the
    slot holds a child that ends, and may never do on a slot that holds
    no child. *)

From Stdlib Require Import List String Ascii ZArith Lia Bool Arith.
From Equations Require Import Equations.
From Equations.Prop Require Import Logic.
Import ListNotations.

Local Open Scope string_scope.
Local Open Scope Z_scope.

(* ================================================================== *)
(** ** C strings *)
(* ================================================================== *)

Module CString.

Definition TAB : ascii := "009"%char.
Definition NL : ascii := "010"%char.
Definition VT : ascii := "011"%char.
Definition FF : ascii := "012"%char.
Definition CR : ascii := "013"%char.

(** A line as [getline] delivers it: the text and its newline. *)
Definition line (s : string) : string := s ++ String NL "".

(** [isspace] in the "C" locale: space, \t, \n, \v, \f, \r. *)
Definition isspace (c : ascii) : bool :=
  let n := nat_of_ascii c in
  ((9 <=? n)%nat && (n <=? 13)%nat) || (n =? 32)%nat.

(** [strchr(s, c)]: the suffix of [s] that starts at the first [c]. *)
Fixpoint strchr (s : string) (c : ascii) : option string :=
  match s with
  | EmptyString => None
  | String a s' => if Ascii.eqb a c then Some s else strchr s' c
  end.

(** Membership of a character in a delimiter set. *)
Fixpoint is_delim (delim : string) (c : ascii) : bool :=
  match delim with
  | EmptyString => false
  | String d delim' => Ascii.eqb c d || is_delim delim' c
  end.

(** [s + strspn(s, delim)]: drop the leading delimiters. *)
Fixpoint skip_delims (s delim : string) : string :=
  match s with
  | EmptyString => EmptyString
  | String a s' => if is_delim delim a then skip_delims s' delim else s
  end.

(** The token at the head of [s] and the new saved pointer: the text
    after the delimiter that is overwritten with NUL, or the end of the
    string when the token runs up to it. *)
Fixpoint cut_token (s delim : string) : string * string :=
  match s with
  | EmptyString => (EmptyString, EmptyString)
  | String a s' =>
      if is_delim delim a then (EmptyString, s')
      else let (tok, save) := cut_token s' delim in (String a tok, save)
  end.

(** [strtok(s, delim)] with its static saved pointer made explicit:
    [s = None] is the call with a null first argument, which resumes
    at [save].  Returns the token (or [None] for a null result) and
    the saved pointer after the call. *)
Definition strtok (s : option string) (delim : string) (save : string)
  : option string * string :=
  let start := match s with Some x => x | None => save end in
  match skip_delims start delim with
  | EmptyString => (None, EmptyString)
  | String a r => let (tok, save') := cut_token (String a r) delim in
                  (Some tok, save')
  end.

(** Plain occurrence count, the specification of the [strchr] loops. *)
Fixpoint count_char (c : ascii) (s : string) : Z :=
  match s with
  | EmptyString => 0
  | String a s' => (if Ascii.eqb a c then 1 else 0) + count_char c s'
  end.

Fixpoint all_chars (p : ascii -> bool) (s : string) : bool :=
  match s with
  | EmptyString => true
  | String a s' => p a && all_chars p s'
  end.

Lemma skip_delims_length s delim :
  (String.length (skip_delims s delim) <= String.length s)%nat.
Proof.
  induction s as [|a s IH]; simpl; [lia|].
  destruct (is_delim delim a); simpl; lia.
Qed.

Lemma cut_token_length s delim :
  (String.length (snd (cut_token s delim)) <= String.length s)%nat.
Proof.
  induction s as [|a s IH]; simpl; [lia|].
  destruct (is_delim delim a); simpl; [lia|].
  destruct (cut_token s delim); simpl in *; lia.
Qed.

Lemma cut_token_shorter a s delim :
  (String.length (snd (cut_token (String a s) delim)) < String.length (String a s))%nat.
Proof.
  simpl. destruct (is_delim delim a); simpl; [lia|].
  pose proof (cut_token_length s delim).
  destruct (cut_token s delim); simpl in *; lia.
Qed.

(** Every token that [strtok] returns consumes at least one character
    of the text it resumes from: the loops over [strtok] terminate. *)
Lemma strtok_progress delim save tok save' :
  strtok None delim save = (Some tok, save') ->
  (String.length save' < String.length save)%nat.
Proof.
  unfold strtok. intros H.
  pose proof (skip_delims_length save delim) as Hs.
  destruct (skip_delims save delim) as [|a r] eqn:E; [discriminate|].
  pose proof (cut_token_shorter a r delim) as Hc.
  destruct (cut_token (String a r) delim) as [t sv] eqn:Ec.
  inversion H; subst. simpl in *. lia.
Qed.

Lemma strchr_length s c r :
  strchr s c = Some r -> (String.length r <= String.length s)%nat.
Proof.
  induction s as [|a s IH]; simpl; [discriminate|].
  destruct (Ascii.eqb a c).
  - intros [= <-]. simpl. lia.
  - intros H. apply IH in H. lia.
Qed.

(** The measure of the occurrence loops: what is left after the
    pointer, and nothing for a null pointer. *)
Definition remaining (occurence : option string) : nat :=
  match occurence with
  | Some s => S (String.length s)
  | None => O
  end.

Lemma strchr_remaining s c :
  (remaining (strchr s c) < S (S (String.length s)))%nat.
Proof.
  destruct (strchr s c) as [r|] eqn:E; simpl; [|lia].
  apply strchr_length in E. lia.
Qed.

(** The counting loop of [check_redirect] and [check_parallel]:
    [while (occurence != NULL) { count++; occurence = strchr(occurence + 1, c); }] *)
Equations count_loop (occurence : option string) (c : ascii) (count : Z) : Z
  by wf (remaining occurence) lt :=
  count_loop None c count := count;
  count_loop (Some EmptyString) c count := count;
  count_loop (Some (String a rest)) c count :=
    count_loop (strchr rest c) c (count + 1).
Next Obligation. simpl. apply strchr_remaining. Qed.

(** The token loops of [parse_input] and [parse_cmds]:
    [while (token != NULL) { arr[n++] = token; token = strtok(NULL, delim); }] *)
Equations token_loop (token : option string) (delim save : string)
  (arr : list string) : list string
  by wf (match token with Some _ => S (String.length save) | None => O end) lt :=
  token_loop None delim save arr := arr;
  token_loop (Some tok) delim save arr with inspect (strtok None delim save) := {
    | exist _ (token', save') E := token_loop token' delim save' (arr ++ [tok])%list }.
Next Obligation.
  destruct token' as [tok'|]; [|lia].
  apply strtok_progress in E. lia.
Qed.

End CString.
Import CString.

(* ================================================================== *)
(** ** Syntax checks and tokenizers *)
(* ================================================================== *)

(** Delimiter sets of the source, written with their control characters. *)
Definition delim_nl : string := String NL "".
Definition delim_ws : string := String " " (String TAB (String NL "")).
Definition delim_args : string :=
  String " " (String TAB (String NL (String ">" ""))).

(** [check_empty_input]: 1 when the line holds white space only. *)
Fixpoint check_empty_input (input : string) : Z :=
  match input with
  | EmptyString => 1
  | String c input' => if isspace c then check_empty_input input' else 0
  end.

(** [parse_input]: the Argument Vector of one command.  The source
    grows the array by [realloc] whenever it is full, so the list has no
    bound; allocation is taken to succeed (when it fails the source
    writes the error line and leaves through [exit(1)]). *)
Definition parse_input (input : string) : list string :=
  let (token, save) := strtok (Some input) delim_args "" in
  token_loop token delim_args save [].

(** [parse_cmds]: the sub-commands of a line, split at [&].  The array
    grows by [realloc] as in [parse_input]; allocation is taken to
    succeed (when [realloc] fails the source writes the error line and
    leaves through [exit(1)]). *)
Definition parse_cmds (input : string) : list string :=
  let (cmd, save) := strtok (Some input) "&" "" in
  token_loop cmd "&" save [].

(** The inner loop of [check_redirect]:
    [while (files != NULL) { files = strtok(NULL, " \t\n"); if (files != NULL) redirect_count++; }] *)
Equations files_loop (files : option string) (save : string)
  (redirect_count : Z) : Z
  by wf (match files with Some _ => S (String.length save) | None => O end) lt :=
  files_loop None save redirect_count := redirect_count;
  files_loop (Some f) save redirect_count with inspect (strtok None delim_ws save) := {
    | exist _ (Some f', save') E := files_loop (Some f') save' (redirect_count + 1);
    | exist _ (None, save') E := files_loop None save' redirect_count }.
Next Obligation. apply strtok_progress in E. lia. Qed.
Next Obligation. lia. Qed.

(** [check_redirect]: the number of [>] in one command, [-1] when the
    single operator has nothing before or after it, and a count above 1
    when more than one file follows it. *)
Definition check_redirect (input : string) : Z :=
  let redirect_count := count_loop (strchr input ">") ">" 0 in
  if redirect_count =? 1 then
    let (before, save1) := strtok (Some input) ">" "" in
    let (after, save2) := strtok None delim_nl save1 in
    match before, after with
    | Some _, Some after' =>
        let (files, save3) := strtok (Some after') " " save2 in
        files_loop files save3 redirect_count
    | _, _ => -1
    end
  else redirect_count.

(** [check_parallel]: the number of [&] in the line, [-1] when the
    single separator has nothing before it. *)
Definition check_parallel (input : string) : Z :=
  let parallel_count := count_loop (strchr input "&") "&" 0 in
  if parallel_count =? 1 then
    let (before, save1) := strtok (Some input) "&" "" in
    let (before', _) := strtok before delim_nl save1 in
    match before' with
    | None => -1
    | Some _ => parallel_count
    end
  else parallel_count.

(** [count_tokens]: the index of the null terminator. *)
Definition count_tokens (arr : list string) : Z := Z.of_nat (List.length arr).

(* ================================================================== *)
(** ** Effects: a state-and-trace monad with early halt *)
(* ================================================================== *)

(** How a process stops running the interpreter's code: [exit(status)],
    a fault (a null pointer handed to [strlen], [strcmp] or [strcat]),
    or a successful [execv], after which the new image runs. *)
Inductive halt : Type :=
| Exit (status : Z)
| Fault
| Image (path_access : string) (argv : list string).

Inductive result (A : Type) : Type :=
| Done (a : A)
| Halt (h : halt).
Arguments Done {A} a.
Arguments Halt {A} h.

Section Monad.
Context {St Ev : Type}.

(** A computation reads and updates the state, appends to the trace
    and either returns or halts the process. *)
Definition M (A : Type) : Type := St -> result A * St * list Ev.

Definition ret {A} (a : A) : M A := fun st => (Done a, st, []).

Definition bind {A B} (m : M A) (k : A -> M B) : M B :=
  fun st =>
    match m st with
    | (Done a, st1, t1) =>
        let '(r, st2, t2) := k a st1 in (r, st2, (t1 ++ t2)%list)
    | (Halt h, st1, t1) => (Halt h, st1, t1)
    end.

Definition emit (e : Ev) : M unit := fun st => (Done tt, st, [e]).
Definition get : M St := fun st => (Done st, st, []).
Definition put (st : St) : M unit := fun _ => (Done tt, st, []).
Definition stop {A} (h : halt) : M A := fun st => (Halt h, st, []).

(** Dereference of a pointer that may be null. *)
Definition deref {A} (p : option A) : M A :=
  match p with
  | Some a => ret a
  | None => stop Fault
  end.

End Monad.

Declare Scope monad_scope.
Delimit Scope monad_scope with monad.
Notation "x <- m ;; k" := (bind m (fun x => k))
  (at level 61, m at next level, right associativity) : monad_scope.
Notation "m ;; k" := (bind m (fun _ => k))
  (at level 61, right associativity) : monad_scope.
Local Open Scope monad_scope.

(* ================================================================== *)
(** ** The operating system seen by the interpreter *)
(* ================================================================== *)

(** What a descriptor refers to. *)
Inductive target : Type :=
| Stdin
| Stdout
| Stderr
| File (name : string).

(** The descriptor table of a process: slot [fd] holds what descriptor
    [fd] refers to, [None] when it is closed. *)
Definition fdtable : Type := list (option target).

Definition std_fds : fdtable := [Some Stdin; Some Stdout; Some Stderr].

Definition STDERR_FILENO : nat := 2.

Inductive fork_result : Type :=
| ForkFailed
| ForkPid (pid : positive).

(** The value [fork] returns in the parent. *)
Definition fork_value (r : fork_result) : Z :=
  match r with
  | ForkFailed => -1
  | ForkPid p => Z.pos p
  end.

Record world : Type := {
  fork : nat -> fork_result;          (* outcome of the n-th call of fork *)
  access_x : string -> bool;          (* access(p, X_OK) == 0 *)
  open_ok : string -> bool;           (* open(f, O_WRONLY|O_CREAT|O_TRUNC) succeeds *)
  execv_ok : string -> list string -> bool;   (* execv replaces the image *)
  chdir_ok : string -> bool;          (* chdir(d) == 0 *)
  fds : fdtable                       (* descriptors of the interpreter *)
}.

Definition error_message : string := line "An error has occurred".

Inductive open_flag : Type := O_WRONLY | O_CREAT | O_TRUNC.

(** System calls of a child, with what they returned. *)
Inductive syscall : Type :=
| SAccess (p : string) (ok : bool)
| SClose (fd : nat)
| SOpen (file : string) (flags : list open_flag) (fd : option nat)
| SWrite (fd : nat) (msg : string) (to : option target)
| SExecv (p : string) (argv : list string) (ok : bool).

(** The lowest descriptor that is not open, as [open] allocates it. *)
Fixpoint lowest_free (t : fdtable) : nat :=
  match t with
  | [] => O
  | None :: _ => O
  | Some _ :: t' => S (lowest_free t')
  end.

Fixpoint set_fd (t : fdtable) (fd : nat) (v : option target) : fdtable :=
  match t, fd with
  | [], O => [v]
  | [], S n => None :: set_fd [] n v
  | _ :: t', O => v :: t'
  | x :: t', S n => x :: set_fd t' n v
  end.

Definition fd_lookup (t : fdtable) (fd : nat) : option target :=
  match nth_error t fd with
  | Some v => v
  | None => None
  end.

Fixpoint close_fd (t : fdtable) (fd : nat) : fdtable :=
  match t, fd with
  | [], _ => []
  | _ :: t', O => None :: t'
  | x :: t', S n => x :: close_fd t' n
  end.

(* ================================================================== *)
(** ** The child side of [exec_command] *)
(* ================================================================== *)

Module Child.

(** The child runs on its own descriptor table and leaves a trace of
    system calls. *)
Definition CM : Type -> Type := @M fdtable syscall.

Definition sys_access (w : world) (p : string) : CM bool :=
  emit (SAccess p (access_x w p)) ;; ret (access_x w p).

Definition sys_close (fd : nat) : CM unit :=
  t <- get ;; emit (SClose fd) ;; put (close_fd t fd).

Definition sys_open (w : world) (file : string) : CM (option nat) :=
  let flags := [O_WRONLY; O_CREAT; O_TRUNC] in
  if open_ok w file then
    t <- get ;;
    let fd := lowest_free t in
    emit (SOpen file flags (Some fd)) ;;
    put (set_fd t fd (Some (File file))) ;;
    ret (Some fd)
  else
    emit (SOpen file flags None) ;; ret None.

Definition sys_write (fd : nat) (msg : string) : CM unit :=
  t <- get ;; emit (SWrite fd msg (fd_lookup t fd)).

(** [execv] returns only when it fails. *)
Definition sys_execv (w : world) (p : string) (argv : list string) : CM unit :=
  if execv_ok w p argv then
    emit (SExecv p argv true) ;; stop (Image p argv)
  else
    emit (SExecv p argv false).

Definition write_error : CM unit := sys_write STDERR_FILENO error_message.

(** The search loop over the directories that are still to be probed;
    [path_access] is the candidate built last. *)
Fixpoint search (w : world) (arrTok : list string) (redirection : Z)
  (path : list string) (path_access : string) : CM string :=
  match path with
  | [] => ret path_access
  | dir :: rest =>
      arrTok0 <- deref (hd_error arrTok) ;;
      let path_access := dir ++ "/" ++ arrTok0 in
      found <- sys_access w path_access ;;
      if found then ret path_access
      else
        (match rest with
         | [] =>
             found' <- sys_access w path_access ;;
             if negb found' then
               if negb (redirection =? 1) then
                 write_error ;; stop (Exit 1)
               else ret tt
             else ret tt
         | _ :: _ => ret tt
         end) ;;
        search w arrTok redirection rest path_access
  end.

(** The [pid == 0] branch of [exec_command] after the search loop:
    redirection setup and image replacement. *)
Definition launch (w : world) (arrTok : list string) (redirection : Z)
  (path_access : string) : CM unit :=
  if redirection =? 1 then
    let file_index := count_tokens arrTok - 1 in
    sys_close 1 ;;
    sys_close 2 ;;
    file <- deref (nth_error arrTok (Z.to_nat file_index)) ;;
    fd <- sys_open w file ;;
    match fd with
    | None => write_error ;; stop (Exit 1)
    | Some fd =>
        let argv := firstn (Z.to_nat file_index) arrTok in
        sys_execv w path_access argv ;;
        sys_write fd error_message ;;
        sys_close fd ;;
        stop (Exit 1)
    end
  else
    sys_execv w path_access arrTok ;;
    write_error ;;
    stop (Exit 1).

(** The [pid == 0] branch of [exec_command]. *)
Definition child (w : world) (arrTok path : list string) (redirection : Z)
  : CM unit :=
  let path_len := count_tokens path in
  if path_len =? 0 then
    write_error ;; stop (Exit 1)
  else
    path_access <- search w arrTok redirection path "" ;;
    launch w arrTok redirection path_access.

End Child.

(** What a spawned child does: how it stops, its descriptor table at
    that point and its system calls. *)
Definition child_run : Type := result unit * fdtable * list syscall.

(* ================================================================== *)
(** ** The interpreter *)
(* ================================================================== *)

(** The variables that live across lines: [path] of [main], the global
    [exit_not_called], and the number of [fork] calls made so far. *)
Record shell : Type := {
  path : list string;
  exit_not_called : bool;
  forks : nat
}.

(** The variables as [main] sets them up: the store holds [/bin].
    [main] allocates one pointer for it and writes no null pointer
    after it; that the store reads as ending there is taken for
    granted. *)
Definition initial_shell : shell :=
  {| path := ["/bin"]; exit_not_called := true; forks := O |}.

(** What the interpreter does that is visible from outside. *)
Inductive event : Type :=
| EError                                  (* write_error() *)
| EForkFailed                             (* fork() returned -1 *)
| ESpawn (pid : Z) (run : child_run)      (* fork() created a child *)
| EWait (pid : option Z)                  (* waitpid on a slot of pid[]; None: never assigned *)
| EChdir (dir : string) (ok : bool).

Definition PM : Type -> Type := @M shell event.

Definition write_error : PM unit := emit EError.

Definition built_in_commands : list string := ["exit"; "cd"; "path"].

(** [strcmp(a, b) == 0] *)
Definition strcmp0 (a b : string) : bool := String.eqb a b.

Fixpoint check_command_loop (arrTok0 : string) (cmds : list string) : Z :=
  match cmds with
  | [] => 0
  | c :: cmds' => if strcmp0 arrTok0 c then 1 else check_command_loop arrTok0 cmds'
  end.

(** [check_command]: 1 when the first token is a built-in; the first
    token is dereferenced. *)
Definition check_command (arrTok : list string) : PM Z :=
  arrTok0 <- deref (hd_error arrTok) ;;
  ret (check_command_loop arrTok0 built_in_commands).

Definition check_path (arrTok : list string) : PM Z :=
  arrTok0 <- deref (hd_error arrTok) ;;
  ret (if strcmp0 arrTok0 (nth 2 built_in_commands "") then 1 else 0).

(** [pid[i] = v] *)
Fixpoint store {A} (l : list A) (i : nat) (v : A) : list A :=
  match l, i with
  | [], _ => []
  | _ :: l', O => v :: l'
  | x :: l', S n => x :: store l' n v
  end.

(** [for (k = 0; k < parallel_cmd + 1; k++) waitpid(pid[k], ...)],
    with [n] iterations to go.  The inner [do ... while], which repeats
    [waitpid] on the same slot until the child has exited or was
    killed, is one [EWait]: the event records that [waitpid] is called
    on the slot.  That the inner loop is left is an assumption on the
    environment.  It holds when the slot holds a child of the
    interpreter that ends; on a slot that was never assigned, or that
    holds [-1] after a failed [fork], the call can fail without writing
    [status], and the source may then repeat it for ever. *)
Fixpoint wait_loop (pid : list (option Z)) (k n : nat) : PM unit :=
  match n with
  | O => ret tt
  | S n' => emit (EWait (nth k pid None)) ;; wait_loop pid (S k) n'
  end.

Definition wait_for_cmds (pid : list (option Z)) (parallel_cmd : Z) : PM unit :=
  wait_loop pid 0 (Z.to_nat (parallel_cmd + 1)).

Definition set_exit_not_called (b : bool) : PM unit :=
  st <- get ;;
  put {| path := path st; exit_not_called := b; forks := forks st |}.

Definition set_path (p : list string) : PM unit :=
  st <- get ;;
  put {| path := p; exit_not_called := exit_not_called st; forks := forks st |}.

Definition dash_exit (arrTok : list string) : PM unit :=
  let args := count_tokens arrTok - 1 in
  if negb (args =? 0) then write_error
  else set_exit_not_called false ;; stop (Exit 0).

Definition dash_exit2 (arrTok : list string) (parallel_cmd : Z)
  (pid : list (option Z)) : PM unit :=
  let args := count_tokens arrTok - 1 in
  if negb (args =? 0) then write_error
  else
    set_exit_not_called false ;;
    (if parallel_cmd >? 0 then wait_for_cmds pid parallel_cmd else ret tt) ;;
    stop (Exit 0).

Definition dash_cd (w : world) (arrTok : list string) : PM unit :=
  let args := count_tokens arrTok - 1 in
  if (args =? 0) || (args >? 1) then write_error
  else
    dir <- deref (nth_error arrTok 1) ;;
    emit (EChdir dir (chdir_ok w dir)) ;;
    if negb (chdir_ok w dir) then write_error else ret tt.

(** [for (i = 0; i < args; i++) path_changed[i] = arrTok[i+1];], with
    [n] iterations to go. *)
Fixpoint dash_path_loop (arrTok : list string) (i n : nat)
  (path_changed : list string) : list string :=
  match n with
  | O => path_changed
  | S n' =>
      dash_path_loop arrTok (S i) n'
        (path_changed ++ [nth (i + 1) arrTok ""])%list
  end.

(** [dash_path]: the list of directories that the returned block
    holds.  The block itself, [BUF_SIZE] pointers that are never
    resized, is [dash_path_block]; the two agree as long as the
    arguments fit the block ([dash_path_block_fits]). *)
Definition dash_path (arrTok : list string) : list string :=
  match nth_error arrTok 1 with
  | Some _ =>
      let args := count_tokens arrTok - 1 in
      dash_path_loop arrTok 0 (Z.to_nat args) []
  | None => []
  end.

Definition which_built_in (w : world) (arrTok : list string)
  (parallel_cmd : Z) (pid : list (option Z)) : PM unit :=
  arrTok0 <- deref (hd_error arrTok) ;;
  if strcmp0 arrTok0 (nth 0 built_in_commands "") then
    if parallel_cmd >? 0 then dash_exit2 arrTok parallel_cmd pid
    else dash_exit arrTok
  else if strcmp0 arrTok0 (nth 1 built_in_commands "") then dash_cd w arrTok
  else ret tt.

(** One call of [fork]: its outcome in the parent. *)
Definition sys_fork (w : world) : PM fork_result :=
  st <- get ;;
  put {| path := path st; exit_not_called := exit_not_called st;
         forks := S (forks st) |} ;;
  ret (fork w (forks st)).

(** The parent side of [exec_command]: it returns the value of [fork]. *)
Definition exec_command (w : world) (arrTok path : list string)
  (redirection : Z) : PM Z :=
  r <- sys_fork w ;;
  match r with
  | ForkFailed => emit EForkFailed ;; write_error ;; ret (fork_value r)
  | ForkPid p =>
      emit (ESpawn (fork_value r)
              (Child.child w arrTok path redirection (fds w))) ;;
      ret (fork_value r)
  end.

(** The body of the loop of [process] over the sub-commands of a
    parallel line, at index [i]; it returns [pid] as the round leaves
    it.  Returning early stands for [continue]. *)
Definition group_step (w : world) (arrTok : list string) (parallel_cmd : Z)
  (i : nat) (pid : list (option Z)) : PM (list (option Z)) :=
  cmd <- deref (nth_error arrTok i) ;;
  let redirection := check_redirect cmd in
  if (redirection >? 1) || (redirection <? 0) then
    write_error ;; ret pid
  else
    let arr := parse_input cmd in
    match arr with
    | [] => ret pid
    | _ :: _ =>
        is_built_in <- check_command arr ;;
        if is_built_in =? 1 then
          is_path <- check_path arr ;;
          (if is_path =? 1 then set_path (dash_path arr)
           else which_built_in w arr parallel_cmd pid) ;;
          ret pid
        else
          st <- get ;;
          p <- exec_command w arr (path st) redirection ;;
          ret (store pid i (Some p))
    end.

(** [for (i = 0; i < parallel_cmd + 1; i++) { ... }] followed by
    [wait_for_cmds]; [idx] holds the values of [i] still to run. *)
Fixpoint group_loop (w : world) (arrTok : list string) (parallel_cmd : Z)
  (idx : list nat) (pid : list (option Z)) : PM unit :=
  match idx with
  | [] => wait_for_cmds pid parallel_cmd
  | i :: idx' =>
      pid' <- group_step w arrTok parallel_cmd i pid ;;
      group_loop w arrTok parallel_cmd idx' pid'
  end.

(** [process] from the declaration of [pid] on. *)
Definition run_line (w : world) (arrTok : list string)
  (parallel_cmd redirection : Z) : PM unit :=
  let slots := Z.to_nat (parallel_cmd + 1) in
  let pid : list (option Z) := repeat None slots in
  if parallel_cmd =? 0 then
    is_built_in <- check_command arrTok ;;
    if is_built_in =? 1 then
      is_path <- check_path arrTok ;;
      if is_path =? 1 then set_path (dash_path arrTok)
      else which_built_in w arrTok parallel_cmd pid
    else
      st <- get ;;
      p <- exec_command w arrTok (path st) redirection ;;
      wait_for_cmds (store pid 0 (Some p)) parallel_cmd
  else
    group_loop w arrTok parallel_cmd (seq 0 slots) pid.

(** [process]: one input line. *)
Definition process (w : world) (input : string) : PM unit :=
  if check_empty_input input =? 1 then ret tt
  else
    let parallel_cmd := check_parallel input in
    if parallel_cmd =? -1 then write_error
    else if parallel_cmd >? 0 then
      run_line w (parse_cmds input) parallel_cmd (-1)
    else
      let redirection := check_redirect input in
      if (redirection >? 1) || (redirection <? 0) then write_error
      else run_line w (parse_input input) parallel_cmd redirection.

(** Successive calls of [process], one for each line that a read loop
    of [main] hands to it, until the interpreter halts. *)
Fixpoint script (w : world) (lines : list string) : PM unit :=
  match lines with
  | [] => ret tt
  | input :: lines' => process w input ;; script w lines'
  end.

(** The sub-commands of a line as [process] cuts it. *)
Definition sub_commands (input : string) : list string :=
  if check_parallel input >? 0 then parse_cmds input else [input].

(** A world for the examples: every [fork] succeeds with pids 100, 101,
    ..., only [/bin/ls] and [/bin/sleep] can be executed, every file can
    be opened and every directory entered. *)
Definition demo : world := {|
  fork := fun n => ForkPid (Pos.of_nat (100 + n));
  access_x := fun p => String.eqb p "/bin/ls" || String.eqb p "/bin/sleep";
  open_ok := fun _ => true;
  execv_ok := fun p _ => String.eqb p "/bin/ls" || String.eqb p "/bin/sleep";
  chdir_ok := fun _ => true;
  fds := std_fds
|}.

(** The world [demo] on a file system where nothing can be created. *)
Definition readonly : world := {|
  fork := fork demo;
  access_x := access_x demo;
  open_ok := fun _ => false;
  execv_ok := execv_ok demo;
  chdir_ok := chdir_ok demo;
  fds := std_fds
|}.

(** A world in which no process can be created. *)
Definition exhausted : world := {|
  fork := fun _ => ForkFailed;
  access_x := access_x demo;
  open_ok := open_ok demo;
  execv_ok := execv_ok demo;
  chdir_ok := chdir_ok demo;
  fds := std_fds
|}.

(* ================================================================== *)
(** ** Properties of the string primitives and the checks *)
(* ================================================================== *)

Lemma count_char_nonneg c s : 0 <= count_char c s.
Proof.
  induction s as [|a s IH]; simpl; [lia|].
  destruct (Ascii.eqb a c); lia.
Qed.

(** The [strchr] loop counts the occurrences of the character. *)
Lemma count_loop_strchr c s : forall k,
  count_loop (strchr s c) c k = k + count_char c s.
Proof.
  induction s as [|a s IH]; intros k; simpl.
  - simp count_loop. lia.
  - destruct (Ascii.eqb a c) eqn:E.
    + simp count_loop. rewrite IH. lia.
    + rewrite IH. lia.
Qed.

Lemma check_empty_input_spec input :
  check_empty_input input = 1 <-> all_chars isspace input = true.
Proof.
  induction input as [|c s IH]; simpl.
  - tauto.
  - destruct (isspace c); simpl; [exact IH|].
    split; discriminate.
Qed.

Lemma check_empty_input_01 input :
  check_empty_input input = 0 \/ check_empty_input input = 1.
Proof.
  induction input as [|c s IH]; simpl; [tauto|].
  destruct (isspace c); tauto.
Qed.

(** A blank line holds no operator. *)
Lemma blank_no_char c input :
  isspace c = false -> all_chars isspace input = true -> count_char c input = 0.
Proof.
  intros Hc. induction input as [|a s IH]; simpl; [reflexivity|].
  intros H. apply andb_prop in H as [Ha Hs].
  destruct (Ascii.eqb_spec a c) as [->|_]; [congruence|].
  rewrite IH by assumption. reflexivity.
Qed.

Lemma check_parallel_count input :
  check_parallel input = count_char "&" input \/
  (check_parallel input = -1 /\ count_char "&" input = 1).
Proof.
  unfold check_parallel. rewrite count_loop_strchr. simpl.
  destruct (count_char "&" input =? 1) eqn:E; [|tauto].
  apply Z.eqb_eq in E.
  destruct (strtok (Some input) "&" "") as [before save1].
  destruct (strtok before delim_nl save1) as [[b|] ?]; tauto.
Qed.

(* ================================================================== *)
(** ** Reasoning about computations *)
(* ================================================================== *)

Section MonadFacts.
Context {St Ev : Type}.

Lemma bind_done {A B} (m : @M St Ev A) (k : A -> M B) st a st1 t1 :
  m st = (Done a, st1, t1) ->
  bind m k st = (let '(r, st2, t2) := k a st1 in (r, st2, (t1 ++ t2)%list)).
Proof. unfold bind. intros ->. reflexivity. Qed.


(** A sequence that returns ran both of its parts to their return. *)
Lemma bind_done_inv {A B} (m : @M St Ev A) (k : A -> M B) st b st' t :
  bind m k st = (Done b, st', t) ->
  exists a st1 t1 t2,
    m st = (Done a, st1, t1) /\ k a st1 = (Done b, st', t2) /\
    t = (t1 ++ t2)%list.
Proof.
  unfold bind. destruct (m st) as [[[a|h] st1] t1]; [|discriminate].
  destruct (k a st1) as [[r st2] t2] eqn:Ek. intros [= -> -> <-].
  exists a, st1, t1, t2. auto.
Qed.

End MonadFacts.

(** The trace of the Completion Waiter: one [waitpid] per slot. *)
Definition waits (pid : list (option Z)) (k n : nat) : list event :=
  map (fun j => EWait (nth j pid None)) (seq k n).

Lemma wait_loop_run pid n : forall k st,
  wait_loop pid k n st = (Done tt, st, waits pid k n).
Proof.
  induction n as [|n IH]; intros k st; [reflexivity|].
  simpl. unfold bind at 1. simpl. rewrite IH. reflexivity.
Qed.

Lemma wait_for_cmds_run pid parallel_cmd st :
  wait_for_cmds pid parallel_cmd st =
  (Done tt, st, waits pid 0 (Z.to_nat (parallel_cmd + 1))).
Proof. apply wait_loop_run. Qed.

Lemma waits_length pid k n : List.length (waits pid k n) = n.
Proof. unfold waits. rewrite length_map, length_seq. reflexivity. Qed.

(** A parallel line that returns has gone through [wait_for_cmds] over
    all [parallel_cmd + 1] slots of [pid]. *)
Lemma group_loop_done w arrTok parallel_cmd idx : forall pid st st' t,
  group_loop w arrTok parallel_cmd idx pid st = (Done tt, st', t) ->
  exists t1 pid',
    t = (t1 ++ waits pid' 0 (Z.to_nat (parallel_cmd + 1)))%list.
Proof.
  induction idx as [|i idx IH]; intros pid st st' t H; simpl in H.
  - rewrite wait_for_cmds_run in H. inversion H; subst.
    exists [], pid. reflexivity.
  - apply bind_done_inv in H as (pid1 & st1 & t1 & t2 & _ & Hk & ->).
    apply IH in Hk as (t3 & pid' & ->).
    exists (t1 ++ t3)%list, pid'. apply app_assoc.
Qed.

(* ================================================================== *)
(** ** Blank lines *)
(* ================================================================== *)

(** C8. A line made of white space only (space, tab, newline, vertical
    tab, form feed, carriage return) is dropped by [process]: it returns
    at once, nothing is spawned or waited for, no error is written and
    the interpreter's state is the one it started from. *)
Theorem blank_line_is_skipped (w : world) (input : string) (st : shell)
  (Hblank : all_chars isspace input = true) :
  process w input st = (Done tt, st, []).
Proof.
  unfold process.
  apply check_empty_input_spec in Hblank. rewrite Hblank. reflexivity.
Qed.

Lemma blank_line_is_skipped_witness :
  all_chars isspace (line (String " " (String TAB " "))) = true /\
  process demo (line (String " " (String TAB " "))) initial_shell
  = (Done tt, initial_shell, []).
Proof.
  split; [reflexivity|].
  apply (blank_line_is_skipped demo (line (String " " (String TAB " ")))).
  reflexivity.
Defined.

(* ================================================================== *)
(** ** Lines with two or more separators *)
(* ================================================================== *)

Lemma separator_line_not_blank input :
  1 <= count_char "&" input -> check_empty_input input = 0.
Proof.
  intros H. destruct (check_empty_input_01 input) as [E|E]; [exact E|].
  apply check_empty_input_spec in E.
  apply (blank_no_char "&") in E; [lia|reflexivity].
Qed.

(** C10. [check_parallel] answers [-1] only for a line with exactly one
    separator.  A line with two or more separators gets its separator
    count back, whatever surrounds the separators, and [process] then
    always enters the loop over the sub-commands: its outcome is never
    the one of a rejected line (a return with the single error line). *)
Theorem many_separators_never_rejected (input : string) :
  (check_parallel input = -1 -> count_char "&" input = 1) /\
  (2 <= count_char "&" input ->
   check_parallel input = count_char "&" input /\
   forall (w : world) (st : shell),
     process w input st =
     group_loop w (parse_cmds input) (count_char "&" input)
       (seq 0 (Z.to_nat (count_char "&" input + 1)))
       (repeat None (Z.to_nat (count_char "&" input + 1))) st /\
     process w input st <> (Done tt, st, [EError])).
Proof.
  split.
  - intros H. destruct (check_parallel_count input) as [E|[_ E]]; [|exact E].
    pose proof (count_char_nonneg "&" input). lia.
  - intros Hn.
    assert (Hc : check_parallel input = count_char "&" input).
    { destruct (check_parallel_count input) as [E|[_ E]]; [exact E|lia]. }
    split; [exact Hc|]. intros w st.
    assert (Hp : process w input st =
      group_loop w (parse_cmds input) (count_char "&" input)
        (seq 0 (Z.to_nat (count_char "&" input + 1)))
        (repeat None (Z.to_nat (count_char "&" input + 1))) st).
    { unfold process. rewrite separator_line_not_blank by lia.
      rewrite Hc. simpl (0 =? 1).  cbv iota.
      destruct (count_char "&" input =? -1) eqn:E1;
        [apply Z.eqb_eq in E1; lia|].
      destruct (count_char "&" input >? 0) eqn:E2;
        [|rewrite Z.gtb_ltb in E2; apply Z.ltb_ge in E2; lia].
      unfold run_line.
      destruct (count_char "&" input =? 0) eqn:E3;
        [apply Z.eqb_eq in E3; lia|]. reflexivity. }
    split; [exact Hp|]. rewrite Hp. intros H.
    apply group_loop_done in H as (t1 & pid' & Ht).
    apply (f_equal (@List.length event)) in Ht.
    rewrite length_app, waits_length in Ht. simpl in Ht. lia.
Qed.

Lemma many_separators_never_rejected_witness :
  count_char "&" "&" = 1 /\
  check_parallel (line "a && b") = 2 /\
  process demo (line "a && b") initial_shell <> (Done tt, initial_shell, [EError]).
Proof.
  split; [|split].
  - apply (proj1 (many_separators_never_rejected "&")). reflexivity.
  - apply (proj2 (many_separators_never_rejected (line "a && b"))).
    vm_compute. discriminate.
  - apply (proj2 (many_separators_never_rejected (line "a && b"))).
    vm_compute. discriminate.
Defined.

(* ================================================================== *)
(** ** The [path] built-in and the empty store *)
(* ================================================================== *)

Lemma skipn_nth_cons {A} (d : A) (l : list A) : forall k,
  (k < List.length l)%nat -> skipn k l = nth k l d :: skipn (S k) l.
Proof.
  induction l as [|x l IH]; intros k Hk; simpl in Hk; [lia|].
  destruct k as [|k]; [reflexivity|].
  simpl. apply IH. lia.
Qed.

Lemma dash_path_loop_copies arrTok n : forall i path_changed,
  (i + 1 + n <= List.length arrTok)%nat ->
  dash_path_loop arrTok i n path_changed =
  (path_changed ++ firstn n (skipn (i + 1) arrTok))%list.
Proof.
  induction n as [|n IH]; intros i acc Hlen; simpl.
  - rewrite app_nil_r. reflexivity.
  - rewrite IH by lia. rewrite <- app_assoc. f_equal. simpl.
    rewrite (skipn_nth_cons "" arrTok (i + 1)) by lia.
    simpl. replace (S (i + 1)) with (S i + 1)%nat by lia. reflexivity.
Qed.

(** [dash_path] returns the tokens after the command name, in order. *)
Lemma dash_path_tail arrTok : dash_path arrTok = tl arrTok.
Proof.
  unfold dash_path.
  destruct arrTok as [|a0 [|a1 args]]; try reflexivity.
  cbn [nth_error]. unfold count_tokens.
  rewrite dash_path_loop_copies.
  - cbn [app Nat.add skipn]. apply firstn_all2.
    cbn [tl List.length]. lia.
  - cbn [List.length]. lia.
Qed.

(** *** The block of [dash_path]

    [dash_path] builds the new store in a block of [BUF_SIZE] pointers
    obtained from [malloc] and never resized, where [parse_input] and
    [parse_cmds] call [realloc] once their [BUF_SIZE] entries are used
    up.  The block is a list of [BUF_SIZE] slots, and a store outside
    it has no defined result. *)
Definition BUF_SIZE : nat := 1024.

(** One slot of a block of pointers: not written yet, the null
    pointer, or a pointer to a string. *)
Inductive slot : Type :=
| Unset
| Null
| Ptr (s : string).

(** [block[i] = v]: [None] when [i] lies outside the block. *)
Definition block_store (block : list slot) (i : nat) (v : slot)
  : option (list slot) :=
  if (i <? List.length block)%nat then Some (store block i v) else None.

(** [for (i = 0; i < args; i++) path_changed[i] = arrTok[i+1];] on the
    block, with [n] iterations to go. *)
Fixpoint dash_path_block_loop (arrTok : list string) (i n : nat)
  (path_changed : list slot) : option (list slot) :=
  match n with
  | O => Some path_changed
  | S n' =>
      match block_store path_changed i (Ptr (nth (i + 1) arrTok "")) with
      | Some path_changed' => dash_path_block_loop arrTok (S i) n' path_changed'
      | None => None
      end
  end.

(** [dash_path] on its block: the block it returns, [None] when one of
    its stores lies outside the block. *)
Definition dash_path_block (arrTok : list string) : option (list slot) :=
  let path_changed := repeat Unset BUF_SIZE in
  match nth_error arrTok 1 with
  | Some _ =>
      let args := count_tokens arrTok - 1 in
      match dash_path_block_loop arrTok 0 (Z.to_nat args) path_changed with
      | Some path_changed' => block_store path_changed' (Z.to_nat args) Null
      | None => None
      end
  | None => block_store path_changed 0 Null
  end.

(** The store a block holds for its readers, which stop at the first
    null pointer. *)
Fixpoint block_contents (block : list slot) : list string :=
  match block with
  | Ptr s :: block' => s :: block_contents block'
  | _ => []
  end.

Lemma store_at_length {A} (l1 : list A) x l2 i v :
  List.length l1 = i -> store (l1 ++ x :: l2)%list i v = (l1 ++ v :: l2)%list.
Proof.
  revert i. induction l1 as [|y l1 IH]; intros i <-; [reflexivity|].
  simpl. f_equal. apply IH. reflexivity.
Qed.

Lemma block_store_length block i v block' :
  block_store block i v = Some block' -> List.length block' = List.length block.
Proof.
  unfold block_store. destruct (_ <? _)%nat; [|discriminate].
  intros [= <-]. clear. revert i.
  induction block as [|x block IH]; intros [|i]; simpl; auto.
Qed.

Lemma block_contents_ptrs (l : list string) rest :
  block_contents (map Ptr l ++ Null :: rest)%list = l.
Proof. induction l as [|s l IH]; simpl; [reflexivity|]. rewrite IH. reflexivity. Qed.

(** While the copies stay inside the block, the loop writes the tokens
    after the command name over its first slots. *)
Lemma dash_path_block_loop_fits a0 args n : forall i pre rest,
  List.length pre = i ->
  (n <= List.length rest)%nat ->
  (i + n <= List.length args)%nat ->
  dash_path_block_loop (a0 :: args) i n (pre ++ rest)%list
  = Some (pre ++ map Ptr (firstn n (skipn i args)) ++ skipn n rest)%list.
Proof.
  induction n as [|n IH]; intros i pre rest Hpre Hrest Hargs.
  - reflexivity.
  - destruct rest as [|r rest]; [simpl in Hrest; lia|].
    cbn [dash_path_block_loop]. unfold block_store.
    replace (i <? List.length (pre ++ r :: rest))%nat with true
      by (symmetry; apply Nat.ltb_lt; rewrite length_app; simpl; lia).
    rewrite (store_at_length pre r rest i _ Hpre).
    replace (pre ++ Ptr (nth (i + 1) (a0 :: args) "") :: rest)%list
      with ((pre ++ [Ptr (nth (i + 1) (a0 :: args) "")]) ++ rest)%list
      by (rewrite <- app_assoc; reflexivity).
    rewrite IH.
    + rewrite <- app_assoc. f_equal.
      rewrite (skipn_nth_cons "" args i) by lia.
      rewrite Nat.add_1_r. reflexivity.
    + rewrite length_app. simpl. lia.
    + simpl in Hrest. lia.
    + lia.
Qed.

(** Once an index reaches the end of the block, the loop has no result. *)
Lemma dash_path_block_loop_overruns arrTok n : forall i path_changed,
  (i <= List.length path_changed)%nat ->
  (List.length path_changed < i + n)%nat ->
  dash_path_block_loop arrTok i n path_changed = None.
Proof.
  induction n as [|n IH]; intros i b Hi Hn; [lia|].
  cbn [dash_path_block_loop].
  destruct (block_store b i _) as [b'|] eqn:E; [|reflexivity].
  pose proof (block_store_length _ _ _ _ E) as Hlen.
  unfold block_store in E.
  destruct (Nat.ltb_spec i (List.length b)); [|discriminate].
  apply IH; lia.
Qed.

(** [dash_path] on its block, in closed form: with fewer than
    [BUF_SIZE] arguments the block holds them in order, then the null
    pointer; from [BUF_SIZE] arguments on a store falls outside. *)
Lemma dash_path_block_spec a0 args :
  dash_path_block (a0 :: args) =
  if (List.length args <? BUF_SIZE)%nat then
    Some (map Ptr args ++ Null :: repeat Unset (BUF_SIZE - List.length args - 1))%list
  else None.
Proof.
  unfold dash_path_block. destruct args as [|a1 args']; [reflexivity|].
  cbn [nth_error]. set (args := a1 :: args').
  replace (Z.to_nat (count_tokens (a0 :: args) - 1)) with (List.length args)
    by (unfold count_tokens; cbn [List.length]; lia).
  pose proof (dash_path_block_loop_fits a0 args (List.length args) 0 []
                (repeat Unset BUF_SIZE) eq_refl) as Hloop.
  rewrite repeat_length, firstn_all in Hloop. cbn [app skipn] in Hloop.
  destruct (Nat.ltb_spec (List.length args) BUF_SIZE) as [Hfit|Hover].
  - rewrite Hloop by lia.
    assert (Hrest : skipn (List.length args) (repeat Unset BUF_SIZE)
                    = Unset :: repeat Unset (BUF_SIZE - List.length args - 1)).
    { replace BUF_SIZE
        with (List.length args + S (BUF_SIZE - List.length args - 1))%nat
        at 1 by lia.
      rewrite repeat_app, skipn_app, repeat_length, Nat.sub_diag.
      rewrite skipn_all2 by (rewrite repeat_length; lia). reflexivity. }
    rewrite Hrest. unfold block_store.
    replace (_ <? _)%nat with true
      by (symmetry; apply Nat.ltb_lt; rewrite length_app, length_map;
          simpl; lia).
    rewrite store_at_length by apply length_map. reflexivity.
  - destruct (Nat.eq_dec (List.length args) BUF_SIZE) as [Heq|Hne].
    + rewrite Hloop by lia. unfold block_store.
      replace (_ <? _)%nat with false; [reflexivity|].
      symmetry. apply Nat.ltb_ge.
      rewrite length_app, length_map, length_skipn, repeat_length.
      lia.
    + rewrite dash_path_block_loop_overruns;
        [reflexivity|lia|rewrite repeat_length; lia].
Qed.

(** Inside the block, [dash_path] is the content of the block. *)
Lemma dash_path_block_fits a0 args :
  (List.length args < BUF_SIZE)%nat ->
  exists block,
    dash_path_block (a0 :: args) = Some block /\
    block_contents block = dash_path (a0 :: args).
Proof.
  intros Hfit. rewrite dash_path_block_spec.
  apply Nat.ltb_lt in Hfit. rewrite Hfit.
  eexists. split; [reflexivity|].
  rewrite block_contents_ptrs, dash_path_tail. reflexivity.
Qed.

(** A child that finds the store empty: one error line, status 1. *)
Definition resolution_failure (t : fdtable) : child_run :=
  (Halt (Exit 1), t,
   [SWrite STDERR_FILENO error_message (fd_lookup t STDERR_FILENO)]).

Lemma child_empty_store w arrTok redirection t :
  Child.child w arrTok [] redirection t = resolution_failure t.
Proof. reflexivity. Qed.

(** No sub-command of the line invokes [path] with a directory. *)
Definition no_path_refill (input : string) : Prop :=
  forall cmd args,
    In cmd (sub_commands input) -> parse_input cmd = "path" :: args -> args = [].

Section EmptyStore.
Variable w : world.

Definition spawn_fails (e : event) : Prop :=
  match e with
  | ESpawn _ run => run = resolution_failure (fds w)
  | _ => True
  end.

(** Started on an empty store, [m] leaves it empty, spawns only children
    that fail to resolve, and returns a value in [Q]. *)
Definition keeps_empty {A} (m : PM A) (Q : A -> Prop) : Prop :=
  forall st r st' t,
    path st = [] -> m st = (r, st', t) ->
    path st' = [] /\ Forall spawn_fails t /\
    match r with Done a => Q a | Halt _ => True end.

Lemma keeps_ret {A} (a : A) (Q : A -> Prop) : Q a -> keeps_empty (ret a) Q.
Proof. intros HQ st r st' t Hst [= <- <- <-]. auto. Qed.

Lemma keeps_stop {A} h (Q : A -> Prop) : keeps_empty (stop h) Q.
Proof. intros st r st' t Hst [= <- <- <-]. auto. Qed.

Lemma keeps_emit e : spawn_fails e -> keeps_empty (emit e) (fun _ => True).
Proof. intros He st r st' t Hst [= <- <- <-]. auto. Qed.

Lemma keeps_bind {A B} (m : PM A) (k : A -> PM B) Q R :
  keeps_empty m Q -> (forall a, Q a -> keeps_empty (k a) R) ->
  keeps_empty (bind m k) R.
Proof.
  intros Hm Hk st r st' t Hst H. unfold bind in H.
  destruct (m st) as [[[a|h] st1] t1] eqn:Em.
  - destruct (Hm _ _ _ _ Hst Em) as (H1 & F1 & Qa).
    destruct (k a st1) as [[r2 st2] t2] eqn:Ek.
    injection H as <- <- <-.
    destruct (Hk a Qa _ _ _ _ H1 Ek) as (H2 & F2 & Rb).
    repeat split; auto. apply Forall_app; auto.
  - injection H as <- <- <-.
    destruct (Hm _ _ _ _ Hst Em) as (H1 & F1 & _). auto.
Qed.

Lemma keeps_weaken {A} (m : PM A) (Q R : A -> Prop) :
  keeps_empty m Q -> (forall a, Q a -> R a) -> keeps_empty m R.
Proof.
  intros Hm HQR st r st' t Hst H.
  destruct (Hm _ _ _ _ Hst H) as (H1 & F1 & HQ).
  repeat split; auto. destruct r; auto.
Qed.

Lemma keeps_get : keeps_empty get (fun st => path st = []).
Proof. intros st r st' t Hst [= <- <- <-]. auto. Qed.

Lemma keeps_put st0 : path st0 = [] -> keeps_empty (put st0) (fun _ => True).
Proof. intros H0 st r st' t Hst [= <- <- <-]. auto. Qed.

Lemma keeps_deref {A} (p : option A) :
  keeps_empty (deref p) (fun a => p = Some a).
Proof.
  destruct p as [a|]; simpl; [apply keeps_ret; reflexivity|apply keeps_stop].
Qed.

Lemma keeps_seq {A B} (m : PM A) (k : PM B) Q R :
  keeps_empty m Q -> keeps_empty k R -> keeps_empty (bind m (fun _ => k)) R.
Proof. intros Hm Hk. apply (keeps_bind m _ Q R); auto. Qed.

Local Abbreviation any := (fun _ => True) (only parsing).

Lemma keeps_write_error : keeps_empty write_error any.
Proof. apply keeps_emit. exact I. Qed.

Lemma keeps_wait_for_cmds pid parallel_cmd :
  keeps_empty (wait_for_cmds pid parallel_cmd) any.
Proof.
  intros st r st' t Hst H. rewrite wait_for_cmds_run in H.
  injection H as <- <- <-. repeat split; auto.
  unfold waits. apply Forall_map, Forall_forall. intros; exact I.
Qed.

Lemma keeps_set_exit_not_called b : keeps_empty (set_exit_not_called b) any.
Proof.
  unfold set_exit_not_called. eapply keeps_bind; [apply keeps_get|].
  intros st Hst. apply keeps_put. exact Hst.
Qed.

Lemma keeps_set_path : keeps_empty (set_path []) any.
Proof.
  unfold set_path. eapply keeps_bind; [apply keeps_get|].
  intros st Hst. apply keeps_put. reflexivity.
Qed.

Lemma keeps_dash_exit arrTok : keeps_empty (dash_exit arrTok) any.
Proof.
  unfold dash_exit. destruct (negb _); [apply keeps_write_error|].
  eapply keeps_seq; [apply keeps_set_exit_not_called|apply keeps_stop].
Qed.

Lemma keeps_dash_exit2 arrTok parallel_cmd pid :
  keeps_empty (dash_exit2 arrTok parallel_cmd pid) any.
Proof.
  unfold dash_exit2. destruct (negb _); [apply keeps_write_error|].
  eapply keeps_seq; [apply keeps_set_exit_not_called|].
  eapply keeps_seq; [|apply keeps_stop].
  destruct (parallel_cmd >? 0);
    [apply keeps_wait_for_cmds|apply (keeps_ret tt any I)].
Qed.

Lemma keeps_dash_cd arrTok : keeps_empty (dash_cd w arrTok) any.
Proof.
  unfold dash_cd. destruct (_ || _); [apply keeps_write_error|].
  eapply keeps_bind; [apply keeps_deref|]. intros dir _.
  eapply keeps_seq; [apply keeps_emit; exact I|].
  destruct (negb _); [apply keeps_write_error|apply (keeps_ret tt any I)].
Qed.

Lemma keeps_which_built_in arrTok parallel_cmd pid :
  keeps_empty (which_built_in w arrTok parallel_cmd pid) any.
Proof.
  unfold which_built_in.
  eapply keeps_bind; [apply keeps_deref|]. intros a0 _.
  destruct (strcmp0 a0 _).
  - destruct (parallel_cmd >? 0);
      [apply keeps_dash_exit2|apply keeps_dash_exit].
  - destruct (strcmp0 a0 _);
      [apply keeps_dash_cd|apply (keeps_ret tt any I)].
Qed.

Lemma keeps_check_command arrTok : keeps_empty (check_command arrTok) any.
Proof.
  unfold check_command. eapply keeps_bind; [apply keeps_deref|].
  intros a0 _. apply keeps_ret. exact I.
Qed.

Lemma keeps_check_path arrTok :
  keeps_empty (check_path arrTok)
    (fun z => z = 1 -> exists args, arrTok = "path" :: args).
Proof.
  unfold check_path. eapply keeps_bind; [apply keeps_deref|].
  intros a0 Ha. apply keeps_ret. cbn [nth built_in_commands].
  unfold strcmp0. destruct (String.eqb_spec a0 "path") as [->|_];
    [|discriminate].
  intros _. destruct arrTok as [|x args]; [discriminate|].
  injection Ha as ->. exists args. reflexivity.
Qed.

Lemma keeps_exec_command arrTok redirection :
  keeps_empty (exec_command w arrTok [] redirection) any.
Proof.
  unfold exec_command.
  apply (keeps_bind _ _ any).
  - unfold sys_fork. eapply keeps_bind; [apply keeps_get|].
    intros st Hst. eapply keeps_seq; [apply keeps_put; exact Hst|].
    apply keeps_ret. exact I.
  - intros [|p] _.
    + eapply keeps_seq; [apply keeps_emit; exact I|].
      eapply keeps_seq; [apply keeps_write_error|]. apply keeps_ret. exact I.
    + eapply keeps_seq; [|apply keeps_ret; exact I].
      apply keeps_emit. simpl. apply child_empty_store.
Qed.

(** The built-in branch of [process] for one Argument Vector, once
    [check_path] has answered [is_path]. *)
Lemma keeps_built_in arr parallel_cmd pid is_path :
  (forall args, arr = "path" :: args -> args = []) ->
  (is_path = 1 -> exists args, arr = "path" :: args) ->
  keeps_empty
    (if is_path =? 1 then set_path (dash_path arr)
     else which_built_in w arr parallel_cmd pid) any.
Proof.
  intros Hq Hz.
  destruct (is_path =? 1) eqn:E.
  - apply Z.eqb_eq in E. destruct (Hz E) as [args ->].
    rewrite dash_path_tail. cbn [tl]. rewrite (Hq args eq_refl).
    apply keeps_set_path.
  - apply keeps_which_built_in.
Qed.

(** The spawning branch of [process] for one Argument Vector. *)
Lemma keeps_spawn {A} arr redirection (k : Z -> PM A) :
  (forall p, keeps_empty (k p) any) ->
  keeps_empty
    (st <- get ;; p <- exec_command w arr (path st) redirection ;; k p) any.
Proof.
  intros Hk.
  eapply keeps_bind; [apply keeps_get|]. intros st Hst. rewrite Hst.
  eapply keeps_bind; [apply keeps_exec_command|]. intros p _. apply Hk.
Qed.

Lemma keeps_group_step arrTok parallel_cmd i pid :
  (forall cmd args,
     In cmd arrTok -> parse_input cmd = "path" :: args -> args = []) ->
  keeps_empty (group_step w arrTok parallel_cmd i pid) any.
Proof.
  intros Hq. unfold group_step.
  eapply keeps_bind; [apply keeps_deref|]. intros cmd Hcmd.
  apply nth_error_In in Hcmd.
  destruct (_ || _).
  - eapply keeps_seq; [apply keeps_write_error|apply keeps_ret; exact I].
  - destruct (parse_input cmd) as [|a0 args] eqn:E.
    + apply keeps_ret. exact I.
    + eapply keeps_bind; [apply keeps_check_command|]. intros z _.
      destruct (z =? 1).
      * eapply keeps_bind; [apply keeps_check_path|]. intros z' Hz'.
        eapply keeps_seq; [|apply keeps_ret; exact I].
        apply keeps_built_in; [|exact Hz'].
        intros args' Ha. apply (Hq cmd args' Hcmd). congruence.
      * apply keeps_spawn. intros p. apply keeps_ret. exact I.
Qed.

Lemma keeps_group_loop arrTok parallel_cmd idx :
  (forall cmd args,
     In cmd arrTok -> parse_input cmd = "path" :: args -> args = []) ->
  forall pid, keeps_empty (group_loop w arrTok parallel_cmd idx pid) any.
Proof.
  intros Hq. induction idx as [|i idx IH]; intros pid; simpl.
  - apply keeps_wait_for_cmds.
  - eapply keeps_bind; [apply keeps_group_step; exact Hq|].
    intros pid' _. apply IH.
Qed.

Lemma keeps_process input :
  no_path_refill input -> keeps_empty (process w input) any.
Proof.
  unfold no_path_refill, sub_commands. intros Hq. unfold process.
  destruct (check_empty_input input =? 1); [apply keeps_ret; exact I|].
  destruct (check_parallel input =? -1) eqn:Eneg; [apply keeps_write_error|].
  destruct (check_parallel input >? 0) eqn:Epar.
  - unfold run_line.
    destruct (check_parallel input =? 0) eqn:E0.
    + apply Z.eqb_eq in E0. rewrite E0 in Epar. discriminate.
    + apply keeps_group_loop. exact Hq.
  - destruct (_ || _); [apply keeps_write_error|].
    unfold run_line.
    destruct (check_parallel input =? 0) eqn:E0.
    + eapply keeps_bind; [apply keeps_check_command|]. intros z _.
      destruct (z =? 1).
      * eapply keeps_bind; [apply keeps_check_path|]. intros z' Hz'.
        apply keeps_built_in; [|exact Hz'].
        intros args Ha. apply (Hq input args); [left; reflexivity|exact Ha].
      * apply keeps_spawn. intros p. apply keeps_wait_for_cmds.
    + exfalso. pose proof (count_char_nonneg "&" input).
      apply Z.eqb_neq in Eneg, E0.
      rewrite Z.gtb_ltb in Epar. apply Z.ltb_ge in Epar.
      destruct (check_parallel_count input) as [E|[E _]]; lia.
Qed.

(** The empty store outlives any script without a [path] refill. *)
Lemma keeps_script lines :
  Forall no_path_refill lines -> keeps_empty (script w lines) any.
Proof.
  induction 1 as [|input lines Hq _ IH]; simpl.
  - apply keeps_ret. exact I.
  - eapply keeps_seq; [apply keeps_process; exact Hq|exact IH].
Qed.

End EmptyStore.

(** The shell after [path] has run with the directories [dirs]. *)
Definition with_path (st : shell) (dirs : list string) : shell :=
  {| path := dirs; exit_not_called := exit_not_called st; forks := forks st |}.

Lemma built_in_path_run w args parallel_cmd pid st :
  (is_built_in <- check_command ("path" :: args) ;;
   if is_built_in =? 1 then
     is_path <- check_path ("path" :: args) ;;
     if is_path =? 1 then set_path (dash_path ("path" :: args))
     else which_built_in w ("path" :: args) parallel_cmd pid
   else
     st <- get ;;
     p <- exec_command w ("path" :: args) (path st) 0 ;; ret tt) st
  = (Done tt, with_path st args, []).
Proof. rewrite dash_path_tail. reflexivity. Qed.

(** X28. A [path] command without redirection operator and with fewer
    than [BUF_SIZE] arguments replaces the Search Path Store by its
    arguments, in the order given: [dash_path] fills its block with
    them and closes it with the null pointer, and both places where
    [process] runs the built-in, the single command and the
    sub-command of a parallel line, install that list, so the empty
    list when there is no argument.  Once the store is empty it stays
    empty over every following line handed to [process] until one
    invokes [path] with a directory, and every child spawned meanwhile
    fails to resolve its command: it writes the one error line and
    exits with status 1 without probing anything. *)
Theorem path_replaces_store (w : world) (st : shell) (input : string)
  (args : list string)
  (Hline : check_empty_input input = 0)
  (Hplain : check_redirect input = 0)
  (Hargv : parse_input input = "path" :: args)
  (Hfit : (List.length args < BUF_SIZE)%nat) :
  (exists block,
     dash_path_block ("path" :: args) = Some block /\
     block_contents block = args) /\
  (check_parallel input = 0 ->
   process w input st = (Done tt, with_path st args, [])) /\
  (forall arrTok parallel_cmd i pid,
     nth_error arrTok i = Some input ->
     group_step w arrTok parallel_cmd i pid st
     = (Done pid, with_path st args, [])) /\
  (args = [] ->
   forall lines r st' t,
     Forall no_path_refill lines ->
     script w lines (with_path st args) = (r, st', t) ->
     path st' = [] /\
     forall pid run, In (ESpawn pid run) t -> run = resolution_failure (fds w)).
Proof.
  split; [|split; [|split]].
  - destruct (dash_path_block_fits "path" args Hfit) as (block & Hb & Hc).
    exists block. split; [exact Hb|]. rewrite Hc. apply dash_path_tail.
  - intros Hpar. unfold process. rewrite Hline, Hpar. cbn [Z.eqb Z.gtb Z.compare].
    unfold run_line. cbn [Z.eqb]. rewrite Hargv, dash_path_tail, Hplain.
    reflexivity.
  - intros arrTok parallel_cmd i pid Hi. unfold group_step.
    rewrite Hi. cbn [deref]. unfold bind at 1. cbn [ret].
    rewrite Hargv, dash_path_tail, Hplain. reflexivity.
  - intros -> lines r st' t Hq Hrun.
    destruct (keeps_script w lines Hq (with_path st []) r st' t eq_refl Hrun)
      as (Hp & Hf & _).
    split; [exact Hp|]. intros pid run Hin.
    rewrite Forall_forall in Hf. exact (Hf _ Hin).
Qed.

Lemma path_replaces_store_witness :
  process demo (line "path /a /b") initial_shell
  = (Done tt, with_path initial_shell ["/a"; "/b"], []) /\
  (let '(_, st', t) :=
     script demo [line "ls"; line "ls > out & sleep 1"]
       (with_path initial_shell []) in
   path st' = [] /\
   forall pid run, In (ESpawn pid run) t -> run = resolution_failure std_fds).
Proof.
  assert (Hfit : forall args : list string,
            (List.length args <? BUF_SIZE)%nat = true ->
            (List.length args < BUF_SIZE)%nat)
    by (intros args; apply Nat.ltb_lt).
  split.
  - apply (path_replaces_store demo initial_shell (line "path /a /b")
             ["/a"; "/b"] eq_refl eq_refl eq_refl (Hfit ["/a"; "/b"] eq_refl)).
    reflexivity.
  - destruct (script demo [line "ls"; line "ls > out & sleep 1"]
                (with_path initial_shell [])) as [[r st'] t] eqn:E.
    refine (proj2 (proj2 (proj2
              (path_replaces_store demo initial_shell (line "path") []
                 eq_refl eq_refl eq_refl (Hfit [] eq_refl))))
              eq_refl _ r st' t _ E).
    repeat constructor;
      intros cmd args' Hin Hp; vm_compute in Hin;
      repeat (destruct Hin as [<-|Hin]; [vm_compute in Hp; discriminate|]);
      destruct Hin.
Defined.

(* ================================================================== *)
(** ** Executable resolution *)
(* ================================================================== *)

(** The combined path [directory/command-name]. *)
Definition candidate (dir arrTok0 : string) : string := dir ++ "/" ++ arrTok0.




(** The lines of the uniform error text that reach the standard error
    stream of a child. *)
Fixpoint error_lines (calls : list syscall) : nat :=
  match calls with
  | [] => O
  | SWrite _ msg (Some Stderr) :: calls' =>
      ((if String.eqb msg error_message then 1 else 0) + error_lines calls')%nat
  | _ :: calls' => error_lines calls'
  end.


Lemma error_lines_app c1 c2 :
  error_lines (c1 ++ c2) = (error_lines c1 + error_lines c2)%nat.
Proof.
  induction c1 as [|c c1 IH]; [reflexivity|].
  destruct c as [| | |fd msg [[| | |f]|]|]; simpl; rewrite IH; lia.
Qed.


(** One round of the search loop. *)
Lemma search_step w arrTok0 args redirection dir rest acc t :
  Child.search w (arrTok0 :: args) redirection (dir :: rest) acc t =
  let c := candidate dir arrTok0 in
  if access_x w c then (Done c, t, [SAccess c true])
  else
    match rest with
    | [] =>
        if negb (redirection =? 1) then
          (Halt (Exit 1), t,
           [SAccess c false; SAccess c false;
            SWrite STDERR_FILENO error_message (fd_lookup t STDERR_FILENO)])
        else (Done c, t, [SAccess c false; SAccess c false])
    | _ :: _ =>
        let '(r, t', calls) :=
          Child.search w (arrTok0 :: args) redirection rest c t in
        (r, t', SAccess c false :: calls)
    end.
Proof.
  cbn [Child.search hd_error deref]. unfold bind at 1. cbn [ret].
  unfold bind at 1. unfold Child.sys_access at 1.
  unfold bind at 1. cbn [emit]. fold (candidate dir arrTok0).
  destruct (access_x w (candidate dir arrTok0)) eqn:E; cbn [ret];
    [reflexivity|].
  destruct rest as [|dir' rest'].
  - unfold bind, Child.sys_access. cbn [emit ret]. unfold bind.
    cbn [emit ret]. rewrite E. cbn [negb].
    destruct (negb (redirection =? 1)); reflexivity.
  - unfold bind at 1. cbn [ret].
    destruct (Child.search _ _ _ _ _ _) as [[r t'] calls]. reflexivity.
Qed.




Lemma count_tokens_cons_nonzero (dir : string) (path : list string) :
  (count_tokens (dir :: path) =? 0) = false.
Proof. apply Z.eqb_neq. unfold count_tokens. cbn [List.length]. lia. Qed.







(* ================================================================== *)
(** ** Where the code departs from its documentation *)
(* ================================================================== *)

(** A token over the delimiter [&] that holds no [&] is the whole
    text. *)
Lemma cut_token_no_separator s :
  count_char "&" s = 0 -> cut_token s "&" = (s, "").
Proof.
  induction s as [|a s IH]; [reflexivity|].
  cbn [count_char cut_token is_delim].
  pose proof (count_char_nonneg "&" s) as Hpos.
  destruct (Ascii.eqb a "&"); [lia|]. cbn [orb].
  intros H. rewrite IH by lia. reflexivity.
Qed.

Lemma skip_newlines_nonempty s :
  all_chars (Ascii.eqb NL) s = false -> skip_delims s delim_nl <> "".
Proof.
  induction s as [|a s IH]; [discriminate|].
  cbn [all_chars skip_delims delim_nl is_delim]. rewrite orb_false_r.
  rewrite (Ascii.eqb_sym NL a).
  destruct (Ascii.eqb a NL); cbn [andb]; [exact IH|discriminate].
Qed.

(** Whatever follows a leading separator, as long as it holds no second
    separator and something besides newlines, passes [check_parallel]. *)
Lemma leading_separator_passes rest :
  count_char "&" rest = 0 -> all_chars (Ascii.eqb NL) rest = false ->
  check_parallel (String "&" rest) = 1.
Proof.
  intros Hc Hnl. unfold check_parallel. rewrite count_loop_strchr.
  cbn [count_char Ascii.eqb Bool.eqb]. rewrite Hc. cbn [Z.add Z.eqb Pos.eqb].
  unfold strtok at 1. cbn [skip_delims is_delim Ascii.eqb Bool.eqb orb].
  destruct rest as [|a rest']; [discriminate|].
  assert (Ha : is_delim "&" a = false).
  { cbn [count_char] in Hc. pose proof (count_char_nonneg "&" rest').
    cbn [is_delim]. destruct (Ascii.eqb a "&"); [lia|reflexivity]. }
  cbn [skip_delims]. rewrite Ha, cut_token_no_separator by exact Hc.
  unfold strtok. pose proof (skip_newlines_nonempty _ Hnl) as Hs.
  destruct (skip_delims (String a rest') delim_nl) as [|b r]; [congruence|].
  destruct (cut_token (String b r) delim_nl). reflexivity.
Qed.

(** The search loop leaves the descriptors alone, and it halts the
    child only by [exit(1)]. *)
Lemma search_outcome w arrTok0 args redirection t :
  forall path acc r t' calls,
    Child.search w (arrTok0 :: args) redirection path acc t = (r, t', calls) ->
    t' = t /\ forall h, r = Halt h -> h = Exit 1.
Proof.
  intros path. induction path as [|dir path IH]; intros acc r t' calls H.
  - injection H as <- <- _. split; [reflexivity|discriminate].
  - rewrite search_step in H. cbv zeta in H.
    destruct (access_x w (candidate dir arrTok0)).
    + injection H as <- <- _. split; [reflexivity|discriminate].
    + destruct path as [|dir' path'].
      * destruct (negb (redirection =? 1)); injection H as <- <- _;
          (split; [reflexivity|]); intros h [=]; congruence.
      * destruct (Child.search w (arrTok0 :: args) redirection (dir' :: path')
                    (candidate dir arrTok0) t) as [[r1 t1] c1] eqn:E.
        injection H as <- <- _. exact (IH _ _ _ _ E).
Qed.

Lemma nth_error_last {A} (d : A) (l : list A) :
  l <> [] -> nth_error l (List.length l - 1) = Some (last l d).
Proof.
  induction l as [|x l IH]; [congruence|]. intros _.
  destruct l as [|y l']; [reflexivity|].
  specialize (IH ltac:(discriminate)).
  replace (List.length (y :: l') - 1)%nat with (List.length l') in IH
    by (cbn [List.length]; lia).
  replace (List.length (x :: y :: l') - 1)%nat with (S (List.length l'))
    by (cbn [List.length]; lia).
  exact IH.
Qed.

Lemma firstn_removelast {A} (l : list A) :
  firstn (List.length l - 1) l = removelast l.
Proof.
  induction l as [|x l IH]; [reflexivity|].
  destruct l as [|y l']; [reflexivity|].
  replace (List.length (y :: l') - 1)%nat with (List.length l') in IH
    by (cbn [List.length]; lia).
  replace (List.length (x :: y :: l') - 1)%nat with (S (List.length l'))
    by (cbn [List.length]; lia).
  cbn [firstn]. rewrite IH. reflexivity.
Qed.

(** The redirection setup on the standard descriptors, in full: the
    target is the last token, the image gets the tokens before it,
    descriptor 1 goes to the target and descriptor 2 is closed, also
    when the error text is written after a failure. *)
Lemma launch_redirected w arrTok0 args path_access :
  let file := last (arrTok0 :: args) "" in
  let argv := removelast (arrTok0 :: args) in
  let flags := [O_WRONLY; O_CREAT; O_TRUNC] in
  Child.launch w (arrTok0 :: args) 1 path_access std_fds =
  if open_ok w file then
    if execv_ok w path_access argv then
      (Halt (Image path_access argv),
       [Some Stdin; Some (File file); None],
       [SClose 1; SClose 2; SOpen file flags (Some 1%nat);
        SExecv path_access argv true])
    else
      (Halt (Exit 1), [Some Stdin; None; None],
       [SClose 1; SClose 2; SOpen file flags (Some 1%nat);
        SExecv path_access argv false;
        SWrite 1 error_message (Some (File file)); SClose 1])
  else
    (Halt (Exit 1), [Some Stdin; None; None],
     [SClose 1; SClose 2; SOpen file flags None;
      SWrite STDERR_FILENO error_message None]).
Proof.
  intros file argv flags. unfold Child.launch. cbn [Z.eqb Pos.eqb].
  unfold count_tokens.
  replace (Z.to_nat (Z.of_nat (List.length (arrTok0 :: args)) - 1))
    with (List.length (arrTok0 :: args) - 1)%nat by lia.
  rewrite (nth_error_last "") by discriminate.
  rewrite firstn_removelast.
  fold file. fold argv. clearbody file argv.
  cbv [bind deref ret get put emit stop Child.sys_close Child.sys_open
       Child.sys_execv Child.sys_write Child.write_error].
  destruct (open_ok w file); [|reflexivity].
  destruct (execv_ok w path_access argv); reflexivity.
Qed.

(** Whenever a redirected child started on the standard descriptors
    reaches its image, the image runs without the last token, with
    descriptor 1 on the file named by that token and descriptor 2
    closed. *)
Lemma redirected_image_descriptors w arrTok0 args path p argv t' calls :
  Child.child w (arrTok0 :: args) path 1 std_fds
  = (Halt (Image p argv), t', calls) ->
  argv = removelast (arrTok0 :: args) /\
  t' = [Some Stdin; Some (File (last (arrTok0 :: args) "")); None].
Proof.
  destruct path as [|dir path'].
  { rewrite child_empty_store. intros [=]. }
  unfold Child.child.
  rewrite count_tokens_cons_nonzero.
  unfold bind at 1.
  destruct (Child.search w (arrTok0 :: args) 1 (dir :: path') "" std_fds)
    as [[[c|h] t1] c1] eqn:E.
  2:{ apply search_outcome in E as [_ E]. rewrite (E h eq_refl). intros [=]. }
  apply search_outcome in E as [-> _].
  rewrite launch_redirected. cbv zeta.
  destruct (open_ok w (last (arrTok0 :: args) "")); [|intros [=]].
  destruct (execv_ok w c (removelast (arrTok0 :: args))); [|intros [=]].
  intros H. inversion H; subst. split; reflexivity.
Qed.

Lemma count_char_app c s1 s2 :
  count_char c (s1 ++ s2) = count_char c s1 + count_char c s2.
Proof.
  induction s1 as [|a s1 IH]; [reflexivity|].
  cbn [String.append count_char]. rewrite IH. lia.
Qed.

Lemma cut_token_at_operator pre rest :
  count_char ">" pre = 0 ->
  cut_token (pre ++ String ">" rest) ">" = (pre, rest).
Proof.
  induction pre as [|a pre IH]; [reflexivity|].
  cbn [String.append count_char cut_token is_delim].
  pose proof (count_char_nonneg ">" pre) as Hpos.
  destruct (Ascii.eqb a ">"); [lia|]. cbn [orb].
  intros H. rewrite IH by lia. reflexivity.
Qed.

(** Any command followed by the operator and one blank passes
    [check_redirect], although no file is named. *)
Lemma blank_target_passes pre :
  pre <> "" -> count_char ">" pre = 0 ->
  check_redirect (pre ++ line "> ") = 1.
Proof.
  intros Hne Hc. unfold check_redirect. rewrite count_loop_strchr.
  rewrite count_char_app, Hc.
  change (0 + (0 + count_char ">" (line "> ")) =? 1) with true. cbv iota.
  destruct pre as [|a pre']; [congruence|].
  assert (Ha : is_delim ">" a = false).
  { cbn [count_char] in Hc. pose proof (count_char_nonneg ">" pre').
    cbn [is_delim]. destruct (Ascii.eqb a ">"); [lia|reflexivity]. }
  unfold strtok at 1. cbn [String.append skip_delims]. rewrite Ha.
  unfold line at 1. cbn [String.append].
  change (String a (pre' ++ String ">" (String " " (String NL ""))))
    with (String a pre' ++ String ">" (String " " (String NL ""))).
  rewrite cut_token_at_operator by exact Hc. reflexivity.
Qed.

(** [exit] without arguments in a parallel line: the Completion Waiter
    goes over all [parallel_cmd + 1] slots of [pid], whatever they
    hold, before the interpreter exits. *)
Lemma dash_exit2_waits_all_slots parallel_cmd pid st :
  0 < parallel_cmd ->
  dash_exit2 ["exit"] parallel_cmd pid st
  = (Halt (Exit 0),
     {| path := path st; exit_not_called := false; forks := forks st |},
     waits pid 0 (Z.to_nat (parallel_cmd + 1))).
Proof.
  intros Hn. unfold dash_exit2. cbn [count_tokens List.length Z.of_nat].
  cbn [Z.sub Z.add Z.opp Z.pos_sub Z.eqb negb Pos.of_succ_nat].
  apply Z.gt_lt_iff, Z.gtb_gt in Hn. rewrite Hn.
  cbv [bind set_exit_not_called get put stop ret].
  rewrite wait_for_cmds_run. cbn [app]. rewrite app_nil_r. reflexivity.
Qed.

(** A single external command when [fork] fails: the [-1] it returns
    is stored in [pid[0]] and waited on. *)
Lemma failed_fork_single w arrTok0 args redirection st :
  fork w (forks st) = ForkFailed ->
  check_command_loop arrTok0 built_in_commands = 0 ->
  run_line w (arrTok0 :: args) 0 redirection st
  = (Done tt,
     {| path := path st; exit_not_called := exit_not_called st;
        forks := S (forks st) |},
     [EForkFailed; EError; EWait (Some (-1))]).
Proof.
  intros Hf Hc. unfold run_line. cbn [Z.eqb].
  cbv [bind ret deref hd_error check_command]. rewrite Hc. cbn [Z.eqb].
  cbv [bind ret get put exec_command sys_fork write_error emit].
  rewrite Hf. reflexivity.
Qed.

(** The child of [ls] in the world [demo]. *)
Definition ls_run : child_run :=
  (Halt (Image "/bin/ls" ["ls"]), std_fds,
   [SAccess "/bin/ls" true; SExecv "/bin/ls" ["ls"] true]).

(** C1. The line [& ls] has one separator and nothing before it, yet
    [check_parallel] answers 1, not [-1]: [strtok] skips the leading
    separator, so [before] is the text after it.  [process] then spawns
    [ls] and faults on the null second entry of the sub-command list. *)
Theorem leading_separator_is_accepted :
  check_parallel (line "& cmd") = 1 /\
  check_parallel (line "& ls") = 1 /\
  parse_cmds (line "& ls") = [line " ls"] /\
  process demo (line "& ls") initial_shell
  = (Halt Fault,
     {| path := ["/bin"]; exit_not_called := true; forks := 1 |},
     [ESpawn 100 ls_run]).
Proof. repeat split; reflexivity. Qed.

(** C2. In [sleep 1 & exit] the built-in runs [wait_for_cmds] over both
    slots of [pid]: the one that holds the Process Record of [sleep] and
    its own, which was never assigned. *)
Theorem exit_in_group_waits_on_unset_slot :
  process demo (line "sleep 1 & exit") initial_shell
  = (Halt (Exit 0),
     {| path := ["/bin"]; exit_not_called := false; forks := 1 |},
     [ESpawn 100
        (Halt (Image "/bin/sleep" ["sleep"; "1"]), std_fds,
         [SAccess "/bin/sleep" true;
          SExecv "/bin/sleep" ["sleep"; "1"] true]);
      EWait (Some 100); EWait None]).
Proof. reflexivity. Qed.

(** C3. [check_redirect] accepts [ls > ] (operator, then one space and
    nothing else): [after] is the space, which is not null, and the file
    loop finds no token.  [process] spawns a child that truncates the
    file named after the command and runs the image without arguments. *)
Theorem redirect_without_target_is_accepted :
  check_redirect (line "ls > ") = 1 /\
  parse_input (line "ls > ") = ["ls"] /\
  process demo (line "ls > ") initial_shell
  = (Done tt,
     {| path := ["/bin"]; exit_not_called := true; forks := 1 |},
     [ESpawn 100
        (Halt (Image "/bin/ls" []),
         [Some Stdin; Some (File "ls"); None],
         [SAccess "/bin/ls" true; SClose 1; SClose 2;
          SOpen "ls" [O_WRONLY; O_CREAT; O_TRUNC] (Some 1%nat);
          SExecv "/bin/ls" [] true]);
      EWait (Some 100)]).
Proof. repeat split; reflexivity. Qed.

(** C4. The child of [ls > out] closes descriptors 1 and 2 and opens the
    target once: descriptor 1 then refers to the file, descriptor 2 is
    closed when the image is replaced.  The file name is not in the
    Argument Vector of the image. *)
Theorem redirect_leaves_stderr_closed :
  parse_input (line "ls > out") = ["ls"; "out"] /\
  Child.child demo ["ls"; "out"] ["/bin"] 1 std_fds
  = (Halt (Image "/bin/ls" ["ls"]),
     [Some Stdin; Some (File "out"); None],
     [SAccess "/bin/ls" true; SClose 1; SClose 2;
      SOpen "out" [O_WRONLY; O_CREAT; O_TRUNC] (Some 1%nat);
      SExecv "/bin/ls" ["ls"] true]).
Proof. split; reflexivity. Qed.

(** C7. When [fork] fails for [ls], [exec_command] writes the error
    line and returns [-1]; [process] stores it in [pid[0]] and
    [wait_for_cmds] calls [waitpid] on it. *)
Theorem failed_fork_is_waited_on :
  process exhausted (line "ls") initial_shell
  = (Done tt,
     {| path := ["/bin"]; exit_not_called := true; forks := 1 |},
     [EForkFailed; EError; EWait (Some (-1))]).
Proof. reflexivity. Qed.

(** C9. The line [ls && ls] has two separators and passes
    [check_parallel], but [parse_cmds] yields two entries only: the loop
    of [process] runs for [i = 0, 1, 2] and hands the null third entry
    to [check_redirect]. *)
Theorem adjacent_separators_read_null_entry :
  check_parallel (line "ls && ls") = 2 /\
  parse_cmds (line "ls && ls") = ["ls "; line " ls"] /\
  nth_error (parse_cmds (line "ls && ls")) 2 = None /\
  process demo (line "ls && ls") initial_shell
  = (Halt Fault,
     {| path := ["/bin"]; exit_not_called := true; forks := 2 |},
     [ESpawn 100 ls_run; ESpawn 101 ls_run]).
Proof. repeat split; reflexivity. Qed.

(** The three malformed redirections named by the comment in [process]
    are rejected with one error line and no child. *)
Lemma malformed_redirections_rejected (w : world) (st : shell) :
  process w (line "cmd >") st = (Done tt, st, [EError]) /\
  process w (line "> file") st = (Done tt, st, [EError]) /\
  process w (line "cmd > f1 f2") st = (Done tt, st, [EError]).
Proof. repeat split; reflexivity. Qed.

(* ================================================================== *)
(** ** The tokenizers *)
(* ================================================================== *)

(** A word over a delimiter set: not empty, and free of delimiters. *)
Definition word (delim w : string) : bool :=
  negb (String.eqb w "") && all_chars (fun c => negb (is_delim delim c)) w.

(** [words] glued with the separator [d] between them. *)
Fixpoint unwords (d : ascii) (ws : list string) : string :=
  match ws with
  | [] => ""
  | [w] => w
  | w :: ws' => w ++ String d (unwords d ws')
  end.

(** One round of the token loop. *)
Lemma token_loop_step tok delim save arr :
  token_loop (Some tok) delim save arr =
  token_loop (fst (strtok None delim save)) delim
    (snd (strtok None delim save)) (arr ++ [tok])%list.
Proof.
  simp token_loop.
  destruct (Logic.inspect (strtok None delim save)) as [[t s] E].
  simp token_loop. rewrite E. reflexivity.
Qed.

Lemma token_loop_done delim save arr : token_loop None delim save arr = arr.
Proof. simp token_loop. reflexivity. Qed.

(** One round of the file loop of [check_redirect]. *)
Lemma files_loop_step f save n :
  files_loop (Some f) save n =
  match strtok None delim_ws save with
  | (Some f', save') => files_loop (Some f') save' (n + 1)
  | (None, _) => n
  end.
Proof.
  simp files_loop.
  destruct (Logic.inspect (strtok None delim_ws save)) as [[[t|] s] E];
    simp files_loop; rewrite E; simp files_loop; reflexivity.
Qed.

Lemma skip_delims_head delim s a r :
  skip_delims s delim = String a r -> is_delim delim a = false.
Proof.
  induction s as [|c s IH]; cbn [skip_delims]; [discriminate|].
  destruct (is_delim delim c) eqn:E; [exact IH|].
  intros [= <- _]. exact E.
Qed.

Lemma cut_token_clean delim s :
  all_chars (fun c => negb (is_delim delim c)) (fst (cut_token s delim)) = true.
Proof.
  induction s as [|c s IH]; [reflexivity|]. cbn [cut_token].
  destruct (is_delim delim c) eqn:E; [reflexivity|].
  destruct (cut_token s delim) as [tok sv]. cbn [fst all_chars] in *.
  rewrite E, IH. reflexivity.
Qed.

(** Whatever [strtok] returns is a word. *)
Lemma strtok_word s delim save tok save' :
  strtok s delim save = (Some tok, save') -> word delim tok = true.
Proof.
  unfold strtok.
  destruct (skip_delims _ delim) as [|a r] eqn:E; [discriminate|].
  apply skip_delims_head in E.
  pose proof (cut_token_clean delim (String a r)) as Hc.
  destruct (cut_token (String a r) delim) as [t sv] eqn:Ec.
  intros [= <- _]. cbn [fst] in Hc. unfold word. rewrite Hc.
  cbn [cut_token] in Ec. rewrite E in Ec.
  destruct (cut_token r delim); injection Ec as <- _. reflexivity.
Qed.

Lemma token_loop_words token delim save arr :
  Forall (fun w => word delim w = true) arr ->
  (forall tok, token = Some tok -> word delim tok = true) ->
  Forall (fun w => word delim w = true) (token_loop token delim save arr).
Proof.
  remember (match token with Some _ => S (String.length save) | None => O end)
    as n eqn:En.
  revert token save arr En.
  induction n as [n IH] using lt_wf_ind. intros token save arr En Harr Htok.
  destruct token as [tok|]; [|rewrite token_loop_done; exact Harr].
  rewrite token_loop_step.
  destruct (strtok None delim save) as [t sv] eqn:E. cbn [fst snd].
  eapply (IH _ _ t sv _ eq_refl).
  - apply Forall_app. split; [exact Harr|].
    constructor; [apply Htok; reflexivity|constructor].
  - intros tok' ->. exact (strtok_word _ _ _ _ _ E).
  Unshelve.
  subst n. destruct t as [tok'|]; [|lia].
  apply strtok_progress in E. lia.
Qed.

(** X1. Every token of an Argument Vector is a word: it is not empty
    and holds no space, tab, newline or redirection operator. *)
Theorem parse_input_tokens_are_words (input : string) :
  Forall (fun w => word delim_args w = true) (parse_input input).
Proof.
  unfold parse_input.
  destruct (strtok (Some input) delim_args "") as [token save] eqn:E.
  apply token_loop_words; [constructor|].
  intros tok ->. exact (strtok_word _ _ _ _ _ E).
Qed.

(** X2. Every sub-command that [parse_cmds] cuts out of a line is a
    word over the separator: it is not empty and holds no [&].  Fields
    that are empty (a leading, trailing or doubled separator) yield no
    entry at all. *)
Theorem parse_cmds_entries_are_words (input : string) :
  Forall (fun w => word "&" w = true) (parse_cmds input).
Proof.
  unfold parse_cmds.
  destruct (strtok (Some input) "&" "") as [token save] eqn:E.
  apply token_loop_words; [constructor|].
  intros tok ->. exact (strtok_word _ _ _ _ _ E).
Qed.

(** The text is empty or starts with a delimiter. *)
Definition delim_led (delim s : string) : bool :=
  match s with
  | EmptyString => true
  | String c _ => is_delim delim c
  end.

Definition behead (s : string) : string :=
  match s with
  | EmptyString => EmptyString
  | String _ r => r
  end.

Lemma cut_token_at_delim delim w after :
  all_chars (fun c => negb (is_delim delim c)) w = true ->
  delim_led delim after = true ->
  cut_token (w ++ after) delim = (w, behead after).
Proof.
  intros Hw Ha. induction w as [|c w IH].
  - cbn [String.append]. destruct after as [|a r]; [reflexivity|].
    cbn [delim_led] in Ha. cbn [cut_token behead]. rewrite Ha. reflexivity.
  - cbn [all_chars] in Hw. apply andb_prop in Hw as [Hc Hw].
    apply negb_true_iff in Hc.
    cbn [String.append cut_token]. rewrite Hc, (IH Hw). reflexivity.
Qed.

(** [strtok] at the start of a word returns the word and resumes after
    the delimiter that ends it. *)
Lemma strtok_at_word delim w after save :
  word delim w = true -> delim_led delim after = true ->
  strtok (Some (w ++ after)) delim save = (Some w, behead after) /\
  strtok None delim (w ++ after) = (Some w, behead after).
Proof.
  unfold word. intros Hw Ha. apply andb_prop in Hw as [Hne Hw].
  assert (H : forall sv : string,
    match skip_delims (w ++ after) delim with
    | EmptyString => (None, EmptyString)
    | String a r => let (tok, save') := cut_token (String a r) delim in
                    (Some tok, save')
    end = (Some w, behead after) :> option string * string).
  { intros _. destruct w as [|c w']; [discriminate|].
    pose proof Hw as Hw'. cbn [all_chars] in Hw'.
    apply andb_prop in Hw' as [Hc _]. apply negb_true_iff in Hc.
    cbn [String.append skip_delims]. rewrite Hc.
    change (String c (w' ++ after)) with (String c w' ++ after).
    rewrite (cut_token_at_delim delim (String c w') after Hw Ha).
    reflexivity. }
  split; unfold strtok; apply (H save).
Qed.

Lemma skip_delims_all delim s :
  all_chars (is_delim delim) s = true -> skip_delims s delim = "".
Proof.
  induction s as [|c s IH]; [reflexivity|]. cbn [all_chars skip_delims].
  intros H. apply andb_prop in H as [Hc Hs]. rewrite Hc. exact (IH Hs).
Qed.

Lemma all_delims_led delim s :
  all_chars (is_delim delim) s = true ->
  delim_led delim s = true /\ all_chars (is_delim delim) (behead s) = true.
Proof.
  destruct s as [|c s]; [split; reflexivity|]. cbn [all_chars delim_led behead].
  intros H. apply andb_prop in H. exact H.
Qed.

(** The token loop over words glued with a delimiter, followed by
    delimiters only, collects the words. *)
Lemma token_loop_unwords delim d :
  is_delim delim d = true ->
  forall ws tail w arr,
    Forall (fun w => word delim w = true) ws ->
    all_chars (is_delim delim) tail = true ->
    token_loop (Some w) delim (unwords d ws ++ tail) arr
    = (arr ++ w :: ws)%list.
Proof.
  intros Hd ws. induction ws as [|w2 ws IH]; intros tail w arr Hws Htail.
  - cbn [unwords String.append]. rewrite token_loop_step.
    unfold strtok. rewrite (skip_delims_all _ _ Htail). cbn [fst snd].
    apply token_loop_done.
  - inversion Hws as [|? ? Hw2 Hws']; subst.
    rewrite token_loop_step.
    destruct ws as [|w3 ws'].
    + cbn [unwords]. destruct (all_delims_led _ _ Htail) as [Hled Hrest].
      rewrite (proj2 (strtok_at_word delim w2 tail "" Hw2 Hled)).
      cbn [fst snd].
      specialize (IH (behead tail) w2 (arr ++ [w])%list Hws' Hrest).
      cbn [unwords String.append] in IH. rewrite IH.
      rewrite <- app_assoc. reflexivity.
    + change (unwords d (w2 :: w3 :: ws') ++ tail)
        with ((w2 ++ String d (unwords d (w3 :: ws'))) ++ tail).
      assert (Ea : (w2 ++ String d (unwords d (w3 :: ws'))) ++ tail
                   = w2 ++ String d (unwords d (w3 :: ws') ++ tail)).
      { clear. induction w2 as [|c w2 IHw]; [reflexivity|].
        cbn [String.append]. rewrite IHw. reflexivity. }
      rewrite Ea.
      rewrite (proj2 (strtok_at_word delim w2
                 (String d (unwords d (w3 :: ws') ++ tail)) "" Hw2 Hd)).
      cbn [fst snd behead].
      rewrite (IH tail w2 (arr ++ [w])%list Hws' Htail).
      rewrite <- app_assoc. reflexivity.
Qed.

Lemma append_assoc_cons (a b : string) (d : ascii) (c : string) :
  (a ++ String d b) ++ c = a ++ String d (b ++ c).
Proof.
  induction a as [|x a IH]; [reflexivity|].
  cbn [String.append]. rewrite IH. reflexivity.
Qed.

(** The first call of [strtok] and the loop after it, over glued
    words. *)
Lemma tokens_of_unwords delim d ws tail :
  is_delim delim d = true ->
  Forall (fun w => word delim w = true) ws ->
  all_chars (is_delim delim) tail = true ->
  (let (token, save) := strtok (Some (unwords d ws ++ tail)) delim "" in
   token_loop token delim save []) = ws.
Proof.
  intros Hd Hws Htail. destruct ws as [|w ws].
  - cbn [unwords String.append]. unfold strtok.
    rewrite (skip_delims_all _ _ Htail). apply token_loop_done.
  - inversion Hws as [|? ? Hw Hws']; subst.
    destruct ws as [|w2 ws'].
    + cbn [unwords]. destruct (all_delims_led _ _ Htail) as [Hled Hrest].
      rewrite (proj1 (strtok_at_word delim w tail "" Hw Hled)).
      apply (token_loop_unwords delim d Hd [] (behead tail) w [] Hws' Hrest).
    + change (unwords d (w :: w2 :: ws') ++ tail)
        with ((w ++ String d (unwords d (w2 :: ws'))) ++ tail).
      rewrite append_assoc_cons.
      rewrite (proj1 (strtok_at_word delim w
                 (String d (unwords d (w2 :: ws') ++ tail)) "" Hw Hd)).
      apply (token_loop_unwords delim d Hd (w2 :: ws') tail w [] Hws' Htail).
Qed.

(** X3. Round trip of the Argument Vector: a line made of words
    separated by single spaces and closed by its newline is tokenized
    into exactly these words, in order. *)
Theorem parse_input_unwords (ws : list string)
  (Hws : Forall (fun w => word delim_args w = true) ws) :
  parse_input (line (unwords " " ws)) = ws.
Proof.
  unfold parse_input, line.
  apply (tokens_of_unwords delim_args " " ws (String NL "")); auto.
Qed.

Lemma parse_input_unwords_witness :
  Forall (fun w => word delim_args w = true) ["ls"; "-l"; "/tmp"] /\
  parse_input (line "ls -l /tmp") = ["ls"; "-l"; "/tmp"].
Proof.
  assert (H : Forall (fun w => word delim_args w = true) ["ls"; "-l"; "/tmp"])
    by (repeat constructor).
  split; [exact H|]. exact (parse_input_unwords ["ls"; "-l"; "/tmp"] H).
Defined.

(** X4. Round trip of the Command Group: sub-commands that are not
    empty and hold no separator, glued with single separators, are cut
    apart again unchanged: [n - 1] separators between [n] such fields
    give [n] sub-commands. *)
Theorem parse_cmds_unwords (cmds : list string)
  (Hcmds : Forall (fun c => word "&" c = true) cmds) :
  parse_cmds (unwords "&" cmds) = cmds.
Proof.
  unfold parse_cmds.
  pose proof (tokens_of_unwords "&" "&" cmds "" eq_refl Hcmds eq_refl) as H.
  assert (E : unwords "&" cmds ++ "" = unwords "&" cmds).
  { generalize (unwords "&" cmds). intros s.
    induction s as [|c s IH]; [reflexivity|].
    cbn [String.append]. rewrite IH. reflexivity. }
  rewrite E in H. exact H.
Qed.

Lemma parse_cmds_unwords_witness :
  Forall (fun c => word "&" c = true) ["ls "; " sleep 1 "; line " pwd"] /\
  parse_cmds (line "ls & sleep 1 & pwd") = ["ls "; " sleep 1 "; line " pwd"].
Proof.
  assert (H : Forall (fun c => word "&" c = true)
                ["ls "; " sleep 1 "; line " pwd"]) by (repeat constructor).
  split; [exact H|].
  exact (parse_cmds_unwords ["ls "; " sleep 1 "; line " pwd"] H).
Defined.

Lemma skip_delims_count s :
  count_char "&" (skip_delims s "&") <= count_char "&" s.
Proof.
  induction s as [|c s IH]; [reflexivity|].
  cbn [skip_delims is_delim count_char]. rewrite orb_false_r.
  destruct (Ascii.eqb c "&") eqn:E; [lia|].
  cbn [count_char]. rewrite E. lia.
Qed.

(** Either the token runs to the end of the text, or one separator is
    used up to end it. *)
Lemma cut_token_count s :
  snd (cut_token s "&") = "" \/
  count_char "&" (snd (cut_token s "&")) + 1 <= count_char "&" s.
Proof.
  induction s as [|c s IH]; [left; reflexivity|].
  cbn [cut_token is_delim count_char]. rewrite orb_false_r.
  destruct (Ascii.eqb c "&") eqn:E.
  - right. cbn [snd]. lia.
  - destruct (cut_token s "&") as [tok sv]. cbn [snd] in *.
    destruct IH as [IH|IH]; [left; exact IH|right; lia].
Qed.

Lemma strtok_count s save tok save' :
  strtok s "&" save = (Some tok, save') ->
  save' = "" \/
  count_char "&" save' + 1
  <= count_char "&" (match s with Some x => x | None => save end).
Proof.
  unfold strtok.
  pose proof (skip_delims_count (match s with Some x => x | None => save end))
    as Hs.
  destruct (skip_delims _ "&") as [|a r]; [discriminate|].
  pose proof (cut_token_count (String a r)) as Hc.
  destruct (cut_token (String a r) "&") as [t sv]. cbn [snd] in Hc.
  intros [= _ <-]. destruct Hc as [Hc|Hc]; [left; exact Hc|right; lia].
Qed.

(** The entries the token loop can still add for the text left. *)
Definition entries_left (save : string) : Z :=
  match save with
  | EmptyString => 0
  | _ => count_char "&" save + 1
  end.

Lemma token_loop_length token save arr :
  Z.of_nat (List.length (token_loop token "&" save arr))
  <= Z.of_nat (List.length arr)
     + match token with Some _ => 1 + entries_left save | None => 0 end.
Proof.
  remember (match token with Some _ => S (String.length save) | None => O end)
    as n eqn:En.
  revert token save arr En.
  induction n as [n IH] using lt_wf_ind. intros token save arr En.
  destruct token as [tok|]; [|rewrite token_loop_done; lia].
  rewrite token_loop_step.
  destruct (strtok None "&" save) as [t sv] eqn:E. cbn [fst snd].
  destruct t as [tok'|].
  - pose proof (strtok_progress _ _ _ _ E) as Hlt.
    pose proof (IH (S (String.length sv)) ltac:(lia) (Some tok') sv
                  (arr ++ [tok])%list eq_refl) as H.
    rewrite length_app in H. cbn [List.length] in H.
    apply strtok_count in E.
    assert (Hb : 1 + entries_left sv <= entries_left save).
    { unfold entries_left at 2. destruct save as [|c save'];
        [cbn in Hlt; lia|].
      pose proof (count_char_nonneg "&" (String c save')) as Hpos.
      destruct E as [-> | E]; [|unfold entries_left; destruct sv; lia].
      cbn [entries_left]. lia. }
    lia.
  - rewrite token_loop_done, length_app. cbn [List.length].
    assert (0 <= entries_left save).
    { unfold entries_left. destruct save; [lia|].
      pose proof (count_char_nonneg "&" (String a save)). lia. }
    lia.
Qed.

(** X5. A line with [n] separators is cut into at most [n + 1]
    sub-commands: the loop of [process], which runs [n + 1] times, never
    leaves an entry of the list unread. *)
Theorem parse_cmds_length_bound (input : string) :
  Z.of_nat (List.length (parse_cmds input)) <= count_char "&" input + 1.
Proof.
  unfold parse_cmds.
  destruct (strtok (Some input) "&" "") as [token save] eqn:E.
  pose proof (token_loop_length token save []) as H. cbn [List.length] in H.
  pose proof (count_char_nonneg "&" input) as Hpos.
  destruct token as [tok|]; [|lia].
  apply strtok_count in E.
  destruct E as [-> | E]; [cbn [entries_left] in H; lia|].
  unfold entries_left in H. destruct save; lia.
Qed.

(* ================================================================== *)
(** ** The redirection check *)
(* ================================================================== *)

Lemma files_loop_lower_bound files save n : n <= files_loop files save n.
Proof.
  remember (match files with Some _ => S (String.length save) | None => O end)
    as m eqn:Em.
  revert files save n Em.
  induction m as [m IH] using lt_wf_ind. intros files save n Em.
  destruct files as [f|]; [|simp files_loop; lia].
  rewrite files_loop_step.
  destruct (strtok None delim_ws save) as [[f'|] sv] eqn:E; [|lia].
  apply strtok_progress in E.
  pose proof (IH (S (String.length sv)) ltac:(lia) (Some f') sv (n + 1) eq_refl).
  lia.
Qed.

(** What [check_redirect] can answer for a given number of operators. *)
Lemma check_redirect_range input :
  (count_char ">" input <> 1 /\ check_redirect input = count_char ">" input) \/
  (count_char ">" input = 1 /\
   (check_redirect input = -1 \/ 1 <= check_redirect input)).
Proof.
  unfold check_redirect. rewrite count_loop_strchr. cbn [Z.add].
  destruct (count_char ">" input =? 1) eqn:E.
  - apply Z.eqb_eq in E. right. split; [exact E|]. rewrite E.
    destruct (strtok (Some input) ">" "") as [before save1].
    destruct (strtok None delim_nl save1) as [after save2].
    destruct before as [b|]; [|left; reflexivity].
    destruct after as [a|]; [|left; reflexivity].
    destruct (strtok (Some a) " " save2) as [files save3].
    right. apply files_loop_lower_bound.
  - apply Z.eqb_neq in E. left. split; [exact E|reflexivity].
Qed.

(** X6. [check_redirect] answers 0 exactly for the commands without a
    redirection operator, and answers 1 (a redirection to set up) only
    for commands with exactly one operator. *)
Theorem check_redirect_zero_one (input : string) :
  (check_redirect input = 0 <-> count_char ">" input = 0) /\
  (check_redirect input = 1 -> count_char ">" input = 1).
Proof.
  destruct (check_redirect_range input) as [[Hn E]|[Hc E]].
  - rewrite E. split; [tauto|]. intros H. congruence.
  - rewrite Hc. split; [|reflexivity]. split; intros H; lia.
Qed.

Lemma operator_line_not_blank input :
  1 <= count_char ">" input -> check_empty_input input = 0.
Proof.
  intros H. destruct (check_empty_input_01 input) as [E|E]; [exact E|].
  apply check_empty_input_spec in E.
  apply (blank_no_char ">") in E; [lia|reflexivity].
Qed.

Lemma check_parallel_no_separator input :
  count_char "&" input = 0 -> check_parallel input = 0.
Proof.
  intros H. destruct (check_parallel_count input) as [E|[_ E]]; lia.
Qed.

(** X7. Two or more redirection operators are a syntax error.  A line
    without separator that holds them is rejected as a whole: one error
    line, no process, no change of state.  As a sub-command of a
    parallel line, only that sub-command is dropped, with one error
    line, and the loop goes on. *)
Theorem repeated_operator_is_rejected (w : world) (st : shell)
  (cmd : string) (Hcount : 2 <= count_char ">" cmd) :
  (count_char "&" cmd = 0 -> process w cmd st = (Done tt, st, [EError])) /\
  (forall arrTok parallel_cmd i pid,
     nth_error arrTok i = Some cmd ->
     group_step w arrTok parallel_cmd i pid st = (Done pid, st, [EError])).
Proof.
  assert (Hr : check_redirect cmd = count_char ">" cmd).
  { destruct (check_redirect_range cmd) as [[_ E]|[E _]]; [exact E|lia]. }
  assert (Hbad : (check_redirect cmd >? 1) || (check_redirect cmd <? 0) = true).
  { rewrite Hr. apply orb_true_iff. left. apply Z.gtb_gt. lia. }
  split.
  - intros Hsep. unfold process.
    rewrite operator_line_not_blank by lia.
    rewrite (check_parallel_no_separator cmd Hsep), Hbad. reflexivity.
  - intros arrTok parallel_cmd i pid Hi. unfold group_step.
    rewrite Hi. cbn [deref]. unfold bind at 1. cbn [ret].
    rewrite Hbad. reflexivity.
Qed.

Lemma repeated_operator_is_rejected_witness :
  process demo (line "ls > a > b") initial_shell
  = (Done tt, initial_shell, [EError]) /\
  group_step demo ["ls >> a "; line " ls"] 1 0 [None; None] initial_shell
  = (Done [None; None], initial_shell, [EError]).
Proof.
  split.
  - apply (repeated_operator_is_rejected demo initial_shell (line "ls > a > b"));
      [vm_compute; discriminate|reflexivity].
  - apply (repeated_operator_is_rejected demo initial_shell "ls >> a ");
      [vm_compute; discriminate|reflexivity].
Defined.

Lemma no_char_is_clean c s :
  count_char c s = 0 ->
  all_chars (fun x => negb (is_delim (String c "") x)) s = true.
Proof.
  induction s as [|a s IH]; [reflexivity|].
  cbn [count_char all_chars is_delim]. rewrite orb_false_r.
  pose proof (count_char_nonneg c s) as Hpos.
  destruct (Ascii.eqb a c); [lia|]. intros H. cbn [negb andb].
  apply IH. lia.
Qed.

Lemma no_char_word c s :
  s <> "" -> count_char c s = 0 -> word (String c "") s = true.
Proof.
  intros Hne Hc. unfold word. rewrite (no_char_is_clean c s Hc).
  destruct s; [congruence|reflexivity].
Qed.

Lemma append_empty_r (s : string) : s ++ "" = s.
Proof.
  induction s as [|c s IH]; [reflexivity|].
  cbn [String.append]. rewrite IH. reflexivity.
Qed.

(** [check_redirect] on a command with one operator, [pre > post]:
    what the first two calls of [strtok] return. *)
Lemma check_redirect_single pre post :
  count_char ">" pre = 0 -> count_char ">" post = 0 ->
  check_redirect (pre ++ String ">" post) =
  match pre with
  | EmptyString => -1
  | _ =>
      match strtok None delim_nl post with
      | (Some after', save2) =>
          let (files, save3) := strtok (Some after') " " save2 in
          files_loop files save3 1
      | (None, _) => -1
      end
  end.
Proof.
  intros Hpre Hpost. unfold check_redirect. rewrite count_loop_strchr.
  rewrite count_char_app. cbn [count_char Ascii.eqb Bool.eqb].
  rewrite Hpre, Hpost. cbn [Z.add Z.eqb Pos.eqb].
  destruct pre as [|c pre'].
  - cbn [String.append]. unfold strtok at 1.
    cbn [skip_delims is_delim Ascii.eqb Bool.eqb orb].
    destruct post as [|a post']; [reflexivity|].
    pose proof (no_char_word ">" (String a post') ltac:(discriminate) Hpost)
      as Hw.
    pose proof (proj2 (strtok_at_word ">" (String a post') "" "" Hw eq_refl))
      as Hs.
    rewrite append_empty_r in Hs. unfold strtok in Hs. rewrite Hs.
    reflexivity.
  - pose proof (no_char_word ">" (String c pre') ltac:(discriminate) Hpre)
      as Hw.
    rewrite (proj1 (strtok_at_word ">" (String c pre') (String ">" post) ""
                      Hw eq_refl)).
    cbn [behead].
    destruct (strtok None delim_nl post) as [[a|] save2]; reflexivity.
Qed.

Lemma newlines_are_delims s :
  all_chars (Ascii.eqb NL) s = true -> all_chars (is_delim delim_nl) s = true.
Proof.
  induction s as [|a s IH]; [reflexivity|].
  cbn [all_chars]. intros H. apply andb_prop in H as [Ha Hs].
  rewrite (IH Hs), andb_true_r.
  unfold delim_nl. cbn [is_delim]. rewrite (Ascii.eqb_sym a NL), Ha.
  reflexivity.
Qed.

(** X8. A single redirection operator with nothing before it, or with
    nothing but newlines after it, makes [check_redirect] answer [-1],
    and a line without separator of that shape is rejected by [process]
    with one error line, no process and no change of state. *)
Theorem dangling_operator_is_rejected (w : world) (st : shell)
  (pre post : string)
  (Hpre : count_char ">" pre = 0) (Hpost : count_char ">" post = 0)
  (Hdangling : pre = "" \/ all_chars (Ascii.eqb NL) post = true) :
  check_redirect (pre ++ String ">" post) = -1 /\
  (count_char "&" (pre ++ String ">" post) = 0 ->
   process w (pre ++ String ">" post) st = (Done tt, st, [EError])).
Proof.
  assert (Hr : check_redirect (pre ++ String ">" post) = -1).
  { rewrite check_redirect_single by assumption.
    destruct pre as [|c pre']; [reflexivity|].
    destruct Hdangling as [H|H]; [discriminate|].
    unfold strtok.
    rewrite (skip_delims_all delim_nl post (newlines_are_delims post H)).
    reflexivity. }
  split; [exact Hr|]. intros Hsep. unfold process.
  rewrite operator_line_not_blank.
  - rewrite (check_parallel_no_separator _ Hsep), Hr. reflexivity.
  - rewrite count_char_app. cbn [count_char Ascii.eqb Bool.eqb].
    pose proof (count_char_nonneg ">" pre).
    pose proof (count_char_nonneg ">" post). lia.
Qed.

Lemma dangling_operator_is_rejected_witness :
  process demo (line "> out") initial_shell
  = (Done tt, initial_shell, [EError]) /\
  process demo (line "ls >") initial_shell
  = (Done tt, initial_shell, [EError]).
Proof.
  split.
  - apply (dangling_operator_is_rejected demo initial_shell "" (line " out"));
      try reflexivity. left; reflexivity.
  - apply (dangling_operator_is_rejected demo initial_shell "ls " (line ""));
      try reflexivity. right; reflexivity.
Defined.

(* ================================================================== *)
(** ** The separator check *)
(* ================================================================== *)

Lemma strtok_newlines s save :
  fst (strtok (Some s) delim_nl save)
  = None <-> all_chars (Ascii.eqb NL) s = true.
Proof.
  unfold strtok. split.
  - intros H. destruct (all_chars (Ascii.eqb NL) s) eqn:E; [reflexivity|].
    apply skip_newlines_nonempty in E.
    destruct (skip_delims s delim_nl) as [|a r]; [congruence|].
    destruct (cut_token (String a r) delim_nl). discriminate.
  - intros H. rewrite (skip_delims_all delim_nl s (newlines_are_delims s H)).
    reflexivity.
Qed.

(** X9. [check_parallel] on a line with exactly one separator,
    [pre & post]: the answer is [-1] exactly when the text before the
    separator consists of newlines only, or, when there is no text
    before it, when the text after it consists of newlines only (or is
    empty); otherwise the answer is 1. *)
Theorem check_parallel_single (pre post : string)
  (Hpre : count_char "&" pre = 0) (Hpost : count_char "&" post = 0) :
  check_parallel (pre ++ String "&" post) =
  if all_chars (Ascii.eqb NL)
       (match pre with EmptyString => post | _ => pre end)
  then -1 else 1.
Proof.
  unfold check_parallel. rewrite count_loop_strchr, count_char_app.
  cbn [count_char Ascii.eqb Bool.eqb]. rewrite Hpre, Hpost.
  cbn [Z.add Z.eqb Pos.eqb].
  assert (Hnl : forall s save,
    (let (before', _) := strtok (Some s) delim_nl save in
     match before' with None => -1 | Some _ => 1 end)
    = if all_chars (Ascii.eqb NL) s then -1 else 1).
  { intros s save. pose proof (strtok_newlines s save) as H.
    destruct (strtok (Some s) delim_nl save) as [[b|] sv]; cbn [fst] in H.
    - destruct (all_chars (Ascii.eqb NL) s); [|reflexivity].
      destruct H as [_ H]. discriminate (H eq_refl).
    - rewrite (proj1 H eq_refl). reflexivity. }
  destruct pre as [|c pre'].
  - cbn [String.append]. unfold strtok at 1.
    cbn [skip_delims is_delim Ascii.eqb Bool.eqb orb].
    destruct post as [|a post']; [reflexivity|].
    pose proof (no_char_word "&" (String a post') ltac:(discriminate) Hpost)
      as Hw.
    pose proof (proj2 (strtok_at_word "&" (String a post') "" "" Hw eq_refl))
      as Hs.
    rewrite append_empty_r in Hs. unfold strtok in Hs. rewrite Hs.
    apply Hnl.
  - pose proof (no_char_word "&" (String c pre') ltac:(discriminate) Hpre)
      as Hw.
    rewrite (proj1 (strtok_at_word "&" (String c pre') (String "&" post) ""
                      Hw eq_refl)).
    apply Hnl.
Qed.

Lemma check_parallel_single_witness :
  check_parallel (line "ls & pwd") = 1 /\
  check_parallel (line "&") = -1 /\
  check_parallel (String NL "& ls") = -1.
Proof.
  split; [|split].
  - exact (check_parallel_single "ls " (line " pwd") eq_refl eq_refl).
  - exact (check_parallel_single "" (line "") eq_refl eq_refl).
  - exact (check_parallel_single (String NL "") " ls" eq_refl eq_refl).
Defined.

(* ================================================================== *)
(** ** The built-in commands *)
(* ================================================================== *)

Lemma count_tokens_args (a0 : string) (args : list string) :
  count_tokens (a0 :: args) - 1 = Z.of_nat (List.length args).
Proof. unfold count_tokens. cbn [List.length]. lia. Qed.

(** The shell once [exit] has cleared [exit_not_called]. *)
Definition exiting (st : shell) : shell :=
  {| path := path st; exit_not_called := false; forks := forks st |}.

(** A computation that starts by returning is its continuation. *)
Lemma bind_ret_run {St Ev A B} (a : A) (k : A -> @M St Ev B) st :
  bind (ret a) k st = k a st.
Proof.
  unfold bind, ret. destruct (k a st) as [[r st2] t2]. reflexivity.
Qed.

(** A computation that starts with a step without effect is its
    continuation on the value of that step. *)
Lemma bind_pure {St Ev A B} (m : @M St Ev A) (k : A -> M B) st a :
  m st = (Done a, st, []) -> bind m k st = k a st.
Proof.
  unfold bind. intros ->. destruct (k a st) as [[r st2] t2]. reflexivity.
Qed.

Lemma check_command_run a0 args st :
  check_command (a0 :: args) st
  = (Done (check_command_loop a0 built_in_commands), st, []).
Proof. reflexivity. Qed.

Lemma check_path_run a0 args st :
  check_path (a0 :: args) st
  = (Done (if strcmp0 a0 "path" then 1 else 0), st, []).
Proof. reflexivity. Qed.

Lemma which_built_in_exit w args parallel_cmd pid st :
  which_built_in w ("exit" :: args) parallel_cmd pid st =
  (if parallel_cmd >? 0 then dash_exit2 ("exit" :: args) parallel_cmd pid
   else dash_exit ("exit" :: args)) st.
Proof.
  unfold which_built_in. cbn [hd_error deref]. rewrite bind_ret_run.
  reflexivity.
Qed.

Lemma which_built_in_cd w args parallel_cmd pid st :
  which_built_in w ("cd" :: args) parallel_cmd pid st
  = dash_cd w ("cd" :: args) st.
Proof.
  unfold which_built_in. cbn [hd_error deref]. rewrite bind_ret_run.
  reflexivity.
Qed.

(** X10. [exit] with any argument is an error and nothing else: one
    error line, the interpreter keeps running and its state is
    untouched, both as a single command and inside a parallel line. *)
Theorem exit_with_arguments_is_an_error (w : world) (st : shell)
  (a : string) (args : list string) (parallel_cmd redirection : Z)
  (pid : list (option Z)) :
  which_built_in w ("exit" :: a :: args) parallel_cmd pid st
  = (Done tt, st, [EError]) /\
  run_line w ("exit" :: a :: args) 0 redirection st = (Done tt, st, [EError]).
Proof.
  assert (Hargs : (count_tokens ("exit" :: a :: args) - 1 =? 0) = false).
  { rewrite count_tokens_args. cbn [List.length]. apply Z.eqb_neq. lia. }
  assert (H : forall n p,
            which_built_in w ("exit" :: a :: args) n p st
            = (Done tt, st, [EError])).
  { intros n p. rewrite which_built_in_exit.
    unfold dash_exit2, dash_exit. rewrite Hargs. cbn [negb].
    destruct (n >? 0); reflexivity. }
  split; [apply H|].
  unfold run_line. cbn [Z.eqb].
  rewrite (bind_pure _ _ _ _ (check_command_run "exit" (a :: args) st)).
  change (check_command_loop "exit" built_in_commands =? 1) with true.
  cbv iota.
  rewrite (bind_pure _ _ _ _ (check_path_run "exit" (a :: args) st)).
  change ((if strcmp0 "exit" "path" then 1 else 0) =? 1) with false.
  cbv iota. apply H.
Qed.

(** X11. Outside a parallel line, [exit] without argument ends the
    interpreter with status 0 after clearing [exit_not_called]: nothing
    is forked, nothing is waited for and no error line is written.
    This holds of the dispatch in [which_built_in] and of the single
    command of a line, whatever its redirection count. *)
Theorem exit_ends_with_status_zero (w : world) (st : shell)
  (parallel_cmd redirection : Z) (pid : list (option Z))
  (Hsingle : parallel_cmd <= 0) :
  which_built_in w ["exit"] parallel_cmd pid st
  = (Halt (Exit 0), exiting st, []) /\
  run_line w ["exit"] 0 redirection st = (Halt (Exit 0), exiting st, []).
Proof.
  split.
  - rewrite which_built_in_exit.
    replace (parallel_cmd >? 0) with false; [reflexivity|].
    symmetry. rewrite Z.gtb_ltb. apply Z.ltb_ge. exact Hsingle.
  - reflexivity.
Qed.

Lemma exit_ends_with_status_zero_witness :
  run_line demo ["exit"] 0 0 initial_shell
  = (Halt (Exit 0), exiting initial_shell, []).
Proof.
  apply (exit_ends_with_status_zero demo initial_shell 0 0 []). lia.
Defined.

(** X12. [cd] takes exactly one argument.  With none or with two or
    more it writes one error line and does not call [chdir]; with one
    it calls [chdir] once on that argument and writes one error line
    exactly when the call fails.  The interpreter goes on either way. *)
Theorem cd_changes_directory_or_reports (w : world) (st : shell)
  (args : list string) (parallel_cmd : Z) (pid : list (option Z)) :
  which_built_in w ("cd" :: args) parallel_cmd pid st =
  match args with
  | [dir] =>
      (Done tt, st,
       EChdir dir (chdir_ok w dir) :: if chdir_ok w dir then [] else [EError])
  | _ => (Done tt, st, [EError])
  end.
Proof.
  rewrite which_built_in_cd.
  unfold dash_cd. rewrite count_tokens_args.
  destruct args as [|dir [|b args']].
  - reflexivity.
  - cbn [List.length Z.of_nat Pos.of_succ_nat Z.eqb Z.gtb Z.compare
         Pos.compare Pos.compare_cont orb nth_error deref].
    cbv [bind ret emit write_error]. destruct (chdir_ok w dir); reflexivity.
  - assert (E : (Z.of_nat (List.length (dir :: b :: args')) >? 1) = true).
    { apply Z.gtb_gt. cbn [List.length]. lia. }
    rewrite E, orb_true_r. reflexivity.
Qed.

(** What the built-in branch of [process] does with an Argument Vector
    that names a built-in. *)
Definition built_in_outcome (w : world) (a0 : string) (args : list string)
  (parallel_cmd : Z) (pid : list (option Z)) (st : shell)
  : result unit * shell * list event :=
  if strcmp0 a0 "path" then (Done tt, with_path st args, [])
  else if strcmp0 a0 "exit" then
    match args with
    | [] =>
        (Halt (Exit 0), exiting st,
         if parallel_cmd >? 0 then waits pid 0 (Z.to_nat (parallel_cmd + 1))
         else [])
    | _ :: _ => (Done tt, st, [EError])
    end
  else
    match args with
    | [dir] =>
        (Done tt, st,
         EChdir dir (chdir_ok w dir)
           :: if chdir_ok w dir then [] else [EError])
    | _ => (Done tt, st, [EError])
    end.

Lemma exit_outcome w args parallel_cmd pid st :
  which_built_in w ("exit" :: args) parallel_cmd pid st
  = built_in_outcome w "exit" args parallel_cmd pid st.
Proof.
  rewrite which_built_in_exit. unfold built_in_outcome.
  change (strcmp0 "exit" "path") with false.
  change (strcmp0 "exit" "exit") with true. cbv iota.
  destruct args as [|a args'].
  - destruct (parallel_cmd >? 0) eqn:E; [|reflexivity].
    apply Z.gtb_gt, Z.gt_lt in E.
    exact (dash_exit2_waits_all_slots parallel_cmd pid st E).
  - unfold dash_exit2, dash_exit. rewrite count_tokens_args.
    assert (E : (Z.of_nat (List.length (a :: args')) =? 0) = false)
      by (apply Z.eqb_neq; cbn [List.length]; lia).
    rewrite E. cbn [negb]. destruct (parallel_cmd >? 0); reflexivity.
Qed.

Lemma cd_outcome w args parallel_cmd pid st :
  which_built_in w ("cd" :: args) parallel_cmd pid st
  = built_in_outcome w "cd" args parallel_cmd pid st.
Proof.
  rewrite which_built_in_cd. unfold built_in_outcome.
  change (strcmp0 "cd" "path") with false.
  change (strcmp0 "cd" "exit") with false. cbv iota.
  unfold dash_cd. rewrite count_tokens_args.
  destruct args as [|dir [|b args']].
  - reflexivity.
  - cbn [List.length Z.of_nat Pos.of_succ_nat Z.eqb Z.gtb Z.compare
         Pos.compare Pos.compare_cont orb nth_error deref].
    cbv [bind ret emit write_error]. destruct (chdir_ok w dir); reflexivity.
  - assert (E : (Z.of_nat (List.length (dir :: b :: args')) >? 1) = true).
    { apply Z.gtb_gt. cbn [List.length]. lia. }
    rewrite E, orb_true_r. reflexivity.
Qed.

(** The built-in branch, from [check_path] on. *)
Lemma built_in_branch w a0 args parallel_cmd pid st :
  In a0 built_in_commands ->
  (is_path <- check_path (a0 :: args) ;;
   if is_path =? 1 then set_path (dash_path (a0 :: args))
   else which_built_in w (a0 :: args) parallel_cmd pid) st
  = built_in_outcome w a0 args parallel_cmd pid st.
Proof.
  intros Hin.
  rewrite (bind_pure _ _ _ _ (check_path_run a0 args st)).
  destruct Hin as [<-|[<-|[<-|[]]]].
  - change ((if strcmp0 "exit" "path" then 1 else 0) =? 1) with false.
    cbv iota. apply exit_outcome.
  - change ((if strcmp0 "cd" "path" then 1 else 0) =? 1) with false.
    cbv iota. apply cd_outcome.
  - change ((if strcmp0 "path" "path" then 1 else 0) =? 1) with true.
    cbv iota. rewrite dash_path_tail. reflexivity.
Qed.

Lemma check_command_loop_built_in a0 :
  In a0 built_in_commands -> check_command_loop a0 built_in_commands = 1.
Proof. intros [<-|[<-|[<-|[]]]]; reflexivity. Qed.

(** A single command that names a built-in. *)
Lemma run_line_built_in w a0 args redirection st :
  In a0 built_in_commands ->
  run_line w (a0 :: args) 0 redirection st
  = built_in_outcome w a0 args 0 [None] st.
Proof.
  intros Hin. unfold run_line. cbn [Z.eqb].
  rewrite (bind_pure _ _ _ _ (check_command_run a0 args st)).
  rewrite (check_command_loop_built_in a0 Hin). cbn [Z.eqb Pos.eqb].
  apply (built_in_branch w a0 args 0 [None] st Hin).
Qed.

(** The event is not an attempt to create a process. *)
Definition not_a_fork (e : event) : Prop :=
  match e with
  | ESpawn _ _ | EForkFailed => False
  | _ => True
  end.

Lemma built_in_outcome_no_fork w a0 args parallel_cmd pid st :
  forks (snd (fst (built_in_outcome w a0 args parallel_cmd pid st)))
  = forks st /\
  Forall not_a_fork (snd (built_in_outcome w a0 args parallel_cmd pid st)).
Proof.
  unfold built_in_outcome.
  destruct (strcmp0 a0 "path"); [split; [reflexivity|constructor]|].
  destruct (strcmp0 a0 "exit").
  - destruct args as [|a args'].
    + split; [reflexivity|]. destruct (parallel_cmd >? 0); [|constructor].
      unfold waits. apply Forall_map, Forall_forall. intros; exact I.
    + split; [reflexivity|]. repeat constructor.
  - destruct args as [|dir [|b args']]; (split; [reflexivity|]).
    + repeat constructor.
    + destruct (chdir_ok w dir); repeat constructor.
    + repeat constructor.
Qed.

(** X13. Built-ins run inside the interpreter: a single command whose
    first token is [exit], [cd] or [path] never calls [fork] (the count
    of calls is unchanged and the trace holds neither a spawned child
    nor a failed attempt), whatever its arguments and whether it
    succeeds or not. *)
Theorem built_in_never_forks (w : world) (st : shell) (a0 : string)
  (args : list string) (redirection : Z)
  (Hbuilt_in : In a0 built_in_commands) :
  forks (snd (fst (run_line w (a0 :: args) 0 redirection st))) = forks st /\
  Forall not_a_fork (snd (run_line w (a0 :: args) 0 redirection st)).
Proof.
  rewrite (run_line_built_in w a0 args redirection st Hbuilt_in).
  apply built_in_outcome_no_fork.
Qed.

Lemma built_in_never_forks_witness :
  forks (snd (fst (run_line demo ["cd"; "/tmp"] 0 0 initial_shell))) = O /\
  Forall not_a_fork (snd (run_line demo ["cd"; "/tmp"] 0 0 initial_shell)).
Proof.
  apply (built_in_never_forks demo initial_shell "cd" ["/tmp"] 0).
  right; left; reflexivity.
Defined.

(** X14. A single command that is not a built-in: the interpreter
    forks once, the child gets the Argument Vector, the Search Path
    Store of that moment and the redirection flag, and the interpreter
    waits for exactly that child before [process] returns. *)
Theorem external_command_is_spawned_and_awaited (w : world) (st : shell)
  (a0 : string) (args : list string) (redirection : Z) (p : positive)
  (Hexternal : check_command_loop a0 built_in_commands = 0)
  (Hfork : fork w (forks st) = ForkPid p) :
  run_line w (a0 :: args) 0 redirection st
  = (Done tt,
     {| path := path st; exit_not_called := exit_not_called st;
        forks := S (forks st) |},
     [ESpawn (Z.pos p)
        (Child.child w (a0 :: args) (path st) redirection (fds w));
      EWait (Some (Z.pos p))]).
Proof.
  unfold run_line. cbn [Z.eqb].
  rewrite (bind_pure _ _ _ _ (check_command_run a0 args st)).
  rewrite Hexternal. cbn [Z.eqb].
  cbv [bind ret get put exec_command sys_fork write_error emit].
  rewrite Hfork. reflexivity.
Qed.

Lemma external_command_is_spawned_and_awaited_witness :
  run_line demo ["ls"; "-l"] 0 0 initial_shell
  = (Done tt,
     {| path := ["/bin"]; exit_not_called := true; forks := 1 |},
     [ESpawn 100 (Child.child demo ["ls"; "-l"] ["/bin"] 0 std_fds);
      EWait (Some 100)]).
Proof.
  exact (external_command_is_spawned_and_awaited demo initial_shell "ls"
           ["-l"] 0 100%positive eq_refl eq_refl).
Defined.

(* ================================================================== *)
(** ** What one line can do to the interpreter *)
(* ================================================================== *)

Section Respects.
Variable w : world.

(** [R] relates the state before and after a computation that returns,
    [H] the state before a computation and the state in which it halts;
    [K] is what is known of the Argument Vectors of the line. *)
Variable R : shell -> shell -> Prop.
Variable H : halt -> shell -> shell -> Prop.
Variable K : list string -> Prop.

Hypothesis R_refl : forall st, R st st.
Hypothesis R_trans : forall st1 st2 st3, R st1 st2 -> R st2 st3 -> R st1 st3.
Hypothesis H_after : forall h st1 st2 st3,
  R st1 st2 -> H h st2 st3 -> H h st1 st3.
Hypothesis H_fault : forall st, H Fault st st.
Hypothesis H_exit : forall st, H (Exit 0) st (exiting st).
Hypothesis R_fork : forall st,
  R st {| path := path st; exit_not_called := exit_not_called st;
          forks := S (forks st) |}.
Hypothesis R_path : forall st args,
  K ("path" :: args) -> R st (with_path st args).

Definition respects {A} (m : PM A) (Q : A -> Prop) : Prop :=
  forall st r st' t,
    m st = (r, st', t) ->
    match r with
    | Done a => R st st' /\ Q a
    | Halt h => H h st st'
    end.

Lemma resp_ret {A} (a : A) (Q : A -> Prop) : Q a -> respects (ret a) Q.
Proof. intros HQ st r st' t [= <- <- <-]. auto. Qed.

Lemma resp_emit e : respects (emit e) (fun _ => True).
Proof. intros st r st' t [= <- <- <-]. auto. Qed.

Lemma resp_get : respects get (fun _ => True).
Proof. intros st r st' t [= <- <- <-]. auto. Qed.

Lemma resp_bind {A B} (m : PM A) (k : A -> PM B) Q Q' :
  respects m Q -> (forall a, Q a -> respects (k a) Q') ->
  respects (bind m k) Q'.
Proof.
  intros Hm Hk st r st' t Hrun. unfold bind in Hrun.
  destruct (m st) as [[[a|h] st1] t1] eqn:Em.
  - destruct (Hm _ _ _ _ Em) as [HR HQ].
    destruct (k a st1) as [[r2 st2] t2] eqn:Ek.
    injection Hrun as <- <- <-.
    pose proof (Hk a HQ _ _ _ _ Ek) as H2.
    destruct r2 as [b|h].
    + destruct H2 as [HR2 HQ2]. split; [eapply R_trans; eassumption|exact HQ2].
    + eapply H_after; eassumption.
  - injection Hrun as <- <- <-. exact (Hm _ _ _ _ Em).
Qed.

Lemma resp_seq {A B} (m : PM A) (k : PM B) Q Q' :
  respects m Q -> respects k Q' -> respects (bind m (fun _ => k)) Q'.
Proof. intros Hm Hk. apply (resp_bind m _ Q Q'); auto. Qed.

Lemma resp_deref {A} (p : option A) : respects (deref p) (fun a => p = Some a).
Proof.
  destruct p as [a|]; cbn [deref]; [apply resp_ret; reflexivity|].
  intros st r st' t [= <- <- <-]. apply H_fault.
Qed.

Lemma resp_outcome (out : shell -> result unit * shell * list event)
  (m : PM unit) :
  (forall st, m st = out st) ->
  (forall st, match out st with
              | (Done _, st', _) => R st st'
              | (Halt h, st', _) => H h st st'
              end) ->
  respects m (fun _ => True).
Proof.
  intros Hm Hout st r st' t Hrun. specialize (Hout st).
  rewrite <- Hm, Hrun in Hout. destruct r; auto.
Qed.

Lemma resp_wait_for_cmds pid parallel_cmd :
  respects (wait_for_cmds pid parallel_cmd) (fun _ => True).
Proof.
  intros st r st' t Hrun. rewrite wait_for_cmds_run in Hrun.
  injection Hrun as <- <- <-. auto.
Qed.

Lemma resp_which_built_in arr parallel_cmd pid :
  respects (which_built_in w arr parallel_cmd pid) (fun _ => True).
Proof.
  destruct arr as [|a0 args].
  { intros st r st' t [= <- <- <-]. apply H_fault. }
  destruct (String.eqb_spec a0 "exit") as [->|Hexit].
  { apply (resp_outcome (built_in_outcome w "exit" args parallel_cmd pid)).
    - intros st. apply exit_outcome.
    - intros st. unfold built_in_outcome.
      change (strcmp0 "exit" "path") with false.
      change (strcmp0 "exit" "exit") with true. cbv iota.
      destruct args; [apply H_exit|apply R_refl]. }
  destruct (String.eqb_spec a0 "cd") as [->|Hcd].
  { apply (resp_outcome (built_in_outcome w "cd" args parallel_cmd pid)).
    - intros st. apply cd_outcome.
    - intros st. unfold built_in_outcome.
      change (strcmp0 "cd" "path") with false.
      change (strcmp0 "cd" "exit") with false. cbv iota.
      destruct args as [|dir [|b args']]; apply R_refl. }
  apply (resp_outcome (fun st => (Done tt, st, []))); [|intros; apply R_refl].
  intros st. unfold which_built_in. cbn [hd_error deref].
  rewrite bind_ret_run. cbn [nth built_in_commands]. unfold strcmp0.
  apply String.eqb_neq in Hexit, Hcd. rewrite Hexit, Hcd. reflexivity.
Qed.

Lemma resp_exec_command arr dirs redirection :
  respects (exec_command w arr dirs redirection) (fun _ => True).
Proof.
  unfold exec_command. apply (resp_bind _ _ (fun _ => True)).
  - intros st r st' t [= <- <- <-]. split; [apply R_fork|exact I].
  - intros [|p] _.
    + eapply resp_seq; [apply resp_emit|].
      eapply resp_seq; [apply resp_emit|]. apply resp_ret. exact I.
    + eapply resp_seq; [apply resp_emit|]. apply resp_ret. exact I.
Qed.

Lemma resp_check_command arr : respects (check_command arr) (fun _ => True).
Proof.
  unfold check_command. eapply resp_bind; [apply resp_deref|].
  intros a0 _. apply resp_ret. exact I.
Qed.

Lemma resp_check_path arr :
  respects (check_path arr)
    (fun z => z = 1 -> exists args, arr = "path" :: args).
Proof.
  unfold check_path. eapply resp_bind; [apply resp_deref|].
  intros a0 Ha. apply resp_ret. cbn [nth built_in_commands].
  unfold strcmp0. destruct (String.eqb_spec a0 "path") as [->|_];
    [|discriminate].
  intros _. destruct arr as [|x args]; [discriminate|].
  injection Ha as ->. exists args. reflexivity.
Qed.

(** The built-in branch of [process] for one Argument Vector, once
    [check_path] has answered [is_path]. *)
Lemma resp_built_in arr parallel_cmd pid is_path :
  K arr -> (is_path = 1 -> exists args, arr = "path" :: args) ->
  respects
    (if is_path =? 1 then set_path (dash_path arr)
     else which_built_in w arr parallel_cmd pid) (fun _ => True).
Proof.
  intros HK Hz. destruct (is_path =? 1) eqn:E.
  - apply Z.eqb_eq in E. destruct (Hz E) as [args ->].
    rewrite dash_path_tail. cbn [tl].
    intros st r st' t [= <- <- <-]. split; [|exact I].
    apply R_path. exact HK.
  - apply resp_which_built_in.
Qed.

(** The spawning branch of [process] for one Argument Vector. *)
Lemma resp_spawn {A} arr redirection (k : Z -> PM A) :
  (forall p, respects (k p) (fun _ => True)) ->
  respects
    (st <- get ;; p <- exec_command w arr (path st) redirection ;; k p)
    (fun _ => True).
Proof.
  intros Hk. eapply resp_bind; [apply resp_get|]. intros st0 _.
  eapply resp_bind; [apply resp_exec_command|]. intros p _. apply Hk.
Qed.

Lemma resp_group_step arrTok parallel_cmd i pid :
  (forall cmd, In cmd arrTok -> K (parse_input cmd)) ->
  respects (group_step w arrTok parallel_cmd i pid) (fun _ => True).
Proof.
  intros HK. unfold group_step.
  eapply resp_bind; [apply resp_deref|]. intros cmd Hcmd.
  apply nth_error_In in Hcmd.
  destruct (_ || _).
  - eapply resp_seq; [apply resp_emit|apply resp_ret; exact I].
  - pose proof (HK cmd Hcmd) as Hk.
    destruct (parse_input cmd) as [|a0 args] eqn:E.
    + apply resp_ret. exact I.
    + eapply resp_bind; [apply resp_check_command|]. intros z _.
      destruct (z =? 1).
      * eapply resp_bind; [apply resp_check_path|]. intros z' Hz'.
        apply (resp_seq _ _ (fun _ => True)); [|apply resp_ret; exact I].
        apply resp_built_in; assumption.
      * apply resp_spawn. intros p. apply resp_ret. exact I.
Qed.

Lemma resp_group_loop arrTok parallel_cmd idx :
  (forall cmd, In cmd arrTok -> K (parse_input cmd)) ->
  forall pid,
    respects (group_loop w arrTok parallel_cmd idx pid) (fun _ => True).
Proof.
  intros HK. induction idx as [|i idx IH]; intros pid; cbn [group_loop].
  - apply resp_wait_for_cmds.
  - eapply resp_bind; [apply resp_group_step; exact HK|].
    intros pid' _. apply IH.
Qed.

Lemma resp_process input :
  (forall cmd, In cmd (sub_commands input) -> K (parse_input cmd)) ->
  respects (process w input) (fun _ => True).
Proof.
  unfold sub_commands. intros HK. unfold process.
  destruct (check_empty_input input =? 1); [apply resp_ret; exact I|].
  destruct (check_parallel input =? -1) eqn:Eneg; [apply resp_emit|].
  destruct (check_parallel input >? 0) eqn:Epar.
  - unfold run_line.
    destruct (check_parallel input =? 0) eqn:E0.
    + apply Z.eqb_eq in E0. rewrite E0 in Epar. discriminate.
    + apply resp_group_loop. exact HK.
  - destruct (_ || _); [apply resp_emit|].
    unfold run_line.
    destruct (check_parallel input =? 0) eqn:E0.
    + eapply resp_bind; [apply resp_check_command|]. intros z _.
      destruct (z =? 1).
      * eapply resp_bind; [apply resp_check_path|]. intros z' Hz'.
        apply resp_built_in; [|exact Hz'].
        apply HK. left. reflexivity.
      * apply resp_spawn. intros p. apply resp_wait_for_cmds.
    + exfalso. pose proof (count_char_nonneg "&" input).
      apply Z.eqb_neq in Eneg, E0.
      rewrite Z.gtb_ltb in Epar. apply Z.ltb_ge in Epar.
      destruct (check_parallel_count input) as [E|[E _]]; lia.
Qed.

End Respects.

(** The flag across [process]. *)
Lemma process_flag (w : world) (input : string) (st : shell) :
  let '(r, st', _) := process w input st in
  match r with
  | Done _ => exit_not_called st' = exit_not_called st
  | Halt h => h = Exit 0 -> exit_not_called st' = false
  end.
Proof.
  destruct (process w input st) as [[r st'] t] eqn:E.
  pose proof (resp_process w
    (fun s s' => exit_not_called s' = exit_not_called s)
    (fun h _ s' => h = Exit 0 -> exit_not_called s' = false)
    (fun _ => True)) as Hp.
  cbv beta in Hp.
  specialize (Hp (fun _ => eq_refl)).
  specialize (Hp (fun s1 s2 s3 H12 H23 => eq_trans H23 H12)).
  specialize (Hp (fun h s1 s2 s3 _ H23 => H23)).
  specialize (Hp (fun _ Hx => ltac:(discriminate Hx))).
  specialize (Hp (fun _ _ => eq_refl)).
  specialize (Hp (fun _ => eq_refl) (fun _ _ _ => eq_refl)).
  specialize (Hp input (fun _ _ => I) st r st' t E).
  destruct r as [u|h]; [apply Hp|exact Hp].
Qed.

(** X15. [exit_not_called] changes only on the way out.  When
    [process] returns, the flag is as it was before the line; when
    [process] ends the interpreter with status 0, the [exit] built-in
    has cleared the flag first. *)
Theorem flag_cleared_only_on_exit (w : world) (input : string) (st : shell) :
  let '(r, st', _) := process w input st in
  match r with
  | Done _ => exit_not_called st' = exit_not_called st
  | Halt (Exit 0) => exit_not_called st' = false
  | Halt _ => True
  end.
Proof.
  pose proof (process_flag w input st) as Hflag.
  destruct (process w input st) as [[r st'] t].
  destruct r as [u|h]; [exact Hflag|].
  destruct h as [[| |]| |]; try exact I.
  exact (Hflag eq_refl).
Qed.

(** X16. Only [path] touches the Search Path Store: a line none of
    whose sub-commands has [path] as its first token leaves the store
    as it was, however the line ends. *)
Theorem store_changes_only_by_path (w : world) (input : string) (st : shell)
  (Hquiet : forall cmd, In cmd (sub_commands input) ->
                        hd_error (parse_input cmd) <> Some "path") :
  path (snd (fst (process w input st))) = path st.
Proof.
  destruct (process w input st) as [[r st'] t] eqn:E. cbn [fst snd].
  pose proof (resp_process w
    (fun s s' => path s' = path s) (fun _ s s' => path s' = path s)
    (fun arr => hd_error arr <> Some "path")) as Hp.
  cbv beta in Hp.
  specialize (Hp (fun _ => eq_refl)).
  specialize (Hp (fun s1 s2 s3 H12 H23 => eq_trans H23 H12)).
  specialize (Hp (fun h s1 s2 s3 H12 H23 => eq_trans H23 H12)).
  specialize (Hp (fun _ => eq_refl) (fun _ => eq_refl) (fun _ => eq_refl)).
  assert (Hpath : forall (s : shell) (args : list string),
            hd_error ("path" :: args) <> Some "path" ->
            path (with_path s args) = path s).
  { intros s args Hne. exfalso. apply Hne. reflexivity. }
  specialize (Hp Hpath input Hquiet st r st' t E).
  destruct r as [u|h]; [apply Hp|exact Hp].
Qed.

Lemma store_changes_only_by_path_witness :
  path (snd (fst (process demo (line "cd /tmp & ls > out & exit")
                    initial_shell)))
  = ["/bin"].
Proof.
  apply (store_changes_only_by_path demo (line "cd /tmp & ls > out & exit")
           initial_shell).
  intros cmd Hin. vm_compute in Hin.
  repeat (destruct Hin as [<-|Hin]; [vm_compute; discriminate|]).
  destruct Hin.
Defined.

(* ================================================================== *)
(** ** The child *)
(* ================================================================== *)






(** With a Redirection Spec the search loop always returns, and it
    writes nothing. *)
Lemma search_redirected w arrTok0 args t :
  forall path acc,
    exists c calls,
      Child.search w (arrTok0 :: args) 1 path acc t = (Done c, t, calls) /\
      error_lines calls = O.
Proof.
  intros path. induction path as [|dir path IH]; intros acc.
  - exists acc, []. split; reflexivity.
  - rewrite search_step. cbv zeta.
    destruct (access_x w (candidate dir arrTok0)).
    + eexists _, _. split; reflexivity.
    + destruct path as [|dir' path'].
      * eexists _, _. split; reflexivity.
      * destruct (IH (candidate dir arrTok0)) as (c & calls & -> & Hc).
        eexists _, _. split; [reflexivity|exact Hc].
Qed.

(** X19. A child with a Redirection Spec, started on the standard
    descriptors with a store that is not empty, never writes to the
    standard error stream, whatever fails (resolution, opening the
    target, image replacement): descriptor 2 is closed before anything
    is reported, and stays closed to the end. *)
Theorem redirected_child_spares_stderr (w : world) (arrTok0 : string)
  (args path : list string) (Hstore : path <> []) :
  error_lines (snd (Child.child w (arrTok0 :: args) path 1 std_fds)) = O /\
  fd_lookup (snd (fst (Child.child w (arrTok0 :: args) path 1 std_fds)))
    STDERR_FILENO = None.
Proof.
  destruct path as [|dir path']; [congruence|].
  unfold Child.child. rewrite count_tokens_cons_nonzero.
  destruct (search_redirected w arrTok0 args std_fds (dir :: path') "")
    as (c & calls & Hs & Hsilent).
  rewrite (bind_done _ _ _ _ _ _ Hs), launch_redirected. cbv zeta.
  destruct (open_ok w (last (arrTok0 :: args) ""));
    [destruct (execv_ok w c (removelast (arrTok0 :: args)))|];
    cbn [fst snd]; rewrite error_lines_app, Hsilent; split; reflexivity.
Qed.

Lemma redirected_child_spares_stderr_witness :
  error_lines (snd (Child.child readonly ["nosuch"; "out"] ["/bin"] 1 std_fds))
  = O /\
  fd_lookup (snd (fst (Child.child readonly ["nosuch"; "out"] ["/bin"] 1
                         std_fds))) STDERR_FILENO = None.
Proof.
  apply (redirected_child_spares_stderr readonly "nosuch" ["out"] ["/bin"]).
  discriminate.
Defined.

(* ================================================================== *)
(** ** Spawning and waiting *)
(* ================================================================== *)

(** The event is neither a spawned child nor a wait. *)
Definition quiet (e : event) : Prop :=
  match e with
  | ESpawn _ _ | EWait _ => False
  | _ => True
  end.

Definition not_a_wait (e : event) : Prop :=
  match e with
  | EWait _ => False
  | _ => True
  end.

Lemma check_command_loop_01 a0 :
  (check_command_loop a0 built_in_commands = 1 /\ In a0 built_in_commands) \/
  check_command_loop a0 built_in_commands = 0.
Proof.
  unfold built_in_commands. cbn [check_command_loop]. unfold strcmp0.
  destruct (String.eqb_spec a0 "exit") as [->|_];
    [left; split; [reflexivity|left; reflexivity]|].
  destruct (String.eqb_spec a0 "cd") as [->|_];
    [left; split; [reflexivity|right; left; reflexivity]|].
  destruct (String.eqb_spec a0 "path") as [->|_];
    [left; split; [reflexivity|right; right; left; reflexivity]|].
  right. reflexivity.
Qed.

(** A computation followed by the return of a value. *)
Lemma bind_then_ret {St Ev A B} (m : @M St Ev A) (b : B) st :
  bind m (fun _ => ret b) st =
  (let '(r, st', t) := m st in
   (match r with Done _ => Done b | Halt h => Halt h end, st', t)).
Proof.
  unfold bind, ret. destruct (m st) as [[[a|h] st1] t1]; [|reflexivity].
  rewrite app_nil_r. reflexivity.
Qed.

Lemma built_in_outcome_quiet w a0 args parallel_cmd pid st :
  0 < parallel_cmd ->
  match built_in_outcome w a0 args parallel_cmd pid st with
  | (Done _, _, t) => Forall quiet t
  | (Halt h, _, t) =>
      h = Exit 0 /\ t = waits pid 0 (Z.to_nat (parallel_cmd + 1))
  end.
Proof.
  intros Hn. apply Z.lt_gt, Z.gtb_gt in Hn. unfold built_in_outcome.
  destruct (strcmp0 a0 "path"); [constructor|].
  destruct (strcmp0 a0 "exit").
  - destruct args; [rewrite Hn; split; reflexivity|repeat constructor].
  - destruct args as [|dir [|b args']]; [repeat constructor| |repeat constructor].
    destruct (chdir_ok w dir); repeat constructor.
Qed.

(** The ways one round of the loop over the sub-commands can end. *)
Lemma group_step_cases w arrTok parallel_cmd i pid st r st' t :
  0 < parallel_cmd ->
  group_step w arrTok parallel_cmd i pid st = (r, st', t) ->
  r = Halt Fault \/
  (r = Halt (Exit 0) /\ t = waits pid 0 (Z.to_nat (parallel_cmd + 1))) \/
  (Forall quiet t /\
   (r = Done pid \/ r = Done (store pid i (Some (-1))))) \/
  (exists p run, r = Done (store pid i (Some p)) /\ t = [ESpawn p run]).
Proof.
  intros Hn. unfold group_step.
  destruct (nth_error arrTok i) as [cmd|]; cbn [deref].
  2:{ intros [= <- <- <-]. left. reflexivity. }
  rewrite bind_ret_run.
  destruct (_ || _).
  { intros [= <- <- <-]. right; right; left.
    split; [repeat constructor|left; reflexivity]. }
  destruct (parse_input cmd) as [|a0 args].
  { intros [= <- <- <-]. right; right; left.
    split; [constructor|left; reflexivity]. }
  rewrite (bind_pure _ _ _ _ (check_command_run a0 args st)).
  destruct (check_command_loop_01 a0) as [[-> Hin]| ->]; cbn [Z.eqb Pos.eqb].
  - rewrite (bind_pure _ _ _ _ (check_path_run a0 args st)).
    rewrite bind_then_ret.
    pose proof (built_in_branch w a0 args parallel_cmd pid st Hin) as Hb.
    rewrite (bind_pure _ _ _ _ (check_path_run a0 args st)) in Hb.
    rewrite Hb.
    pose proof (built_in_outcome_quiet w a0 args parallel_cmd pid st Hn) as Hq.
    destruct (built_in_outcome w a0 args parallel_cmd pid st)
      as [[[u|h] st1] t1].
    + intros [= <- <- <-]. right; right; left. split; [exact Hq|left; reflexivity].
    + destruct Hq as [-> ->]. intros [= <- <- <-]. right; left. split; reflexivity.
  - cbv [bind ret get put exec_command sys_fork write_error emit].
    destruct (fork w (forks st)) as [|p]; cbn [fork_value app].
    + intros [= <- <- <-]. right; right; left.
      split; [repeat constructor|right; reflexivity].
    + intros [= <- <- <-]. right; right; right.
      eexists _, _. split; reflexivity.
Qed.

Lemma store_length {A} (l : list A) i v :
  List.length (store l i v) = List.length l.
Proof.
  revert i. induction l as [|x l IH]; intros [|i]; cbn [store List.length];
    auto.
Qed.

Lemma nth_store_other {A} (d : A) (l : list A) i j v :
  i <> j -> nth j (store l i v) d = nth j l d.
Proof.
  revert i j. induction l as [|x l IH]; intros [|i] [|j] Hne;
    cbn [store nth]; auto; try congruence.
Qed.

Lemma nth_store_same {A} (d : A) (l : list A) i v :
  (i < List.length l)%nat -> nth i (store l i v) d = v.
Proof.
  revert i. induction l as [|x l IH]; intros [|i] Hlt; cbn in Hlt;
    cbn [store nth]; try lia; auto. apply IH. lia.
Qed.

(** The slots of [pid] that hold [v]. *)
Definition held {A} (d : A) (l : list A) (v : A) : Prop :=
  exists j, (j < List.length l)%nat /\ nth j l d = v.

Lemma held_store_other (l : list (option Z)) i p v :
  nth i l None = None -> held None l (Some p) -> held None (store l i v) (Some p).
Proof.
  intros Hi (j & Hj & Hp). exists j. rewrite store_length. split; [exact Hj|].
  rewrite nth_store_other; [exact Hp|]. intros ->. congruence.
Qed.

Lemma held_is_waited (pid : list (option Z)) p :
  held None pid (Some p) ->
  In (EWait (Some p)) (waits pid 0 (List.length pid)).
Proof.
  intros (j & Hj & Hp). unfold waits. apply in_map_iff.
  exists j. split; [rewrite Hp; reflexivity|]. apply in_seq. lia.
Qed.

Lemma waits_spawn_free pid k n p run : ~ In (ESpawn p run) (waits pid k n).
Proof.
  unfold waits. intros Hin. apply in_map_iff in Hin as (j & Hj & _).
  discriminate.
Qed.

Lemma quiet_spawn_free t p run : Forall quiet t -> ~ In (ESpawn p run) t.
Proof.
  intros Hq Hin. rewrite Forall_forall in Hq. exact (Hq _ Hin).
Qed.

(** Unless the interpreter faults, the loop over the sub-commands ends
    with a wait on every pid held in [pid] and on every child spawned
    on the way. *)
Lemma group_loop_awaits w arrTok parallel_cmd :
  0 < parallel_cmd ->
  forall idx, NoDup idx ->
  forall pid st r st' t,
    List.length pid = Z.to_nat (parallel_cmd + 1) ->
    (forall i, In i idx ->
               (i < List.length pid)%nat /\ nth i pid None = None) ->
    group_loop w arrTok parallel_cmd idx pid st = (r, st', t) ->
    r <> Halt Fault ->
    forall p,
      held None pid (Some p) \/ (exists run, In (ESpawn p run) t) ->
      In (EWait (Some p)) t.
Proof.
  intros Hn idx. induction idx as [|i idx IH];
    intros Hnd pid st r st' t Hlen Hfree Hrun Hr p Hp.
  - cbn [group_loop] in Hrun. rewrite wait_for_cmds_run in Hrun.
    injection Hrun as <- <- <-. rewrite <- Hlen.
    destruct Hp as [Hp|[run Hp]]; [exact (held_is_waited pid p Hp)|].
    exfalso. exact (waits_spawn_free _ _ _ _ _ Hp).
  - cbn [group_loop] in Hrun. unfold bind in Hrun.
    destruct (group_step w arrTok parallel_cmd i pid st)
      as [[r1 st1] t1] eqn:Es.
    inversion Hnd as [|? ? Hni Hnd']; subst.
    destruct (Hfree i (or_introl eq_refl)) as [Hi Hslot].
    assert (Hnext : forall v j, In j idx ->
              (j < List.length (store pid i v))%nat /\
              nth j (store pid i v) None = None).
    { intros v j Hj. rewrite store_length.
      destruct (Hfree j (or_intror Hj)) as [Hj1 Hj2]. split; [exact Hj1|].
      rewrite nth_store_other; [exact Hj2|]. intros ->. contradiction. }
    destruct (group_step_cases _ _ _ _ _ _ _ _ _ Hn Es)
      as [->|[[-> ->]|[[Hq [->| ->]]|(p0 & run0 & -> & ->)]]].
    + injection Hrun as <- _ _. congruence.
    + injection Hrun as <- <- <-. rewrite <- Hlen.
      destruct Hp as [Hp|[run Hp]]; [exact (held_is_waited pid p Hp)|].
      exfalso. exact (waits_spawn_free _ _ _ _ _ Hp).
    + destruct (group_loop w arrTok parallel_cmd idx pid st1)
        as [[r2 st2] t2] eqn:El.
      injection Hrun as <- <- <-. apply in_or_app. right.
      apply (IH Hnd' pid st1 r2 st2 t2 Hlen
               (fun j Hj => Hfree j (or_intror Hj)) El Hr p).
      destruct Hp as [Hp|[run Hp]]; [left; exact Hp|right].
      apply in_app_or in Hp as [Hp|Hp];
        [exfalso; exact (quiet_spawn_free _ _ _ Hq Hp)|].
      exists run. exact Hp.
    + destruct (group_loop w arrTok parallel_cmd idx
                  (store pid i (Some (-1))) st1) as [[r2 st2] t2] eqn:El.
      injection Hrun as <- <- <-. apply in_or_app. right.
      apply (IH Hnd' _ st1 r2 st2 t2
               ltac:(rewrite store_length; exact Hlen)
               (Hnext (Some (-1))) El Hr p).
      destruct Hp as [Hp|[run Hp]];
        [left; exact (held_store_other pid i p _ Hslot Hp)|right].
      apply in_app_or in Hp as [Hp|Hp];
        [exfalso; exact (quiet_spawn_free _ _ _ Hq Hp)|].
      exists run. exact Hp.
    + destruct (group_loop w arrTok parallel_cmd idx
                  (store pid i (Some p0)) st1) as [[r2 st2] t2] eqn:El.
      injection Hrun as <- <- <-. cbn [app]. apply in_cons.
      apply (IH Hnd' _ st1 r2 st2 t2
               ltac:(rewrite store_length; exact Hlen)
               (Hnext (Some p0)) El Hr p).
      destruct Hp as [Hp|[run Hp]];
        [left; exact (held_store_other pid i p _ Hslot Hp)|].
      destruct Hp as [Hp|Hp]; [|right; exists run; exact Hp].
      injection Hp as <- _. left. exists i. rewrite store_length.
      split; [exact Hi|]. apply nth_store_same. exact Hi.
Qed.

Lemma quiet_not_a_wait t : Forall quiet t -> Forall not_a_wait t.
Proof.
  apply Forall_impl. intros [| | | |] H; try exact I; exact H.
Qed.

(** A parallel line that returns has issued all its waits after every
    other event. *)
Lemma group_loop_order w arrTok parallel_cmd :
  0 < parallel_cmd ->
  forall idx pid st st' t,
    group_loop w arrTok parallel_cmd idx pid st = (Done tt, st', t) ->
    exists t1 pid',
      t = (t1 ++ waits pid' 0 (Z.to_nat (parallel_cmd + 1)))%list /\
      Forall not_a_wait t1.
Proof.
  intros Hn idx. induction idx as [|i idx IH]; intros pid st st' t Hrun.
  - cbn [group_loop] in Hrun. rewrite wait_for_cmds_run in Hrun.
    injection Hrun as <- <-. exists [], pid. split; [reflexivity|constructor].
  - cbn [group_loop] in Hrun.
    apply bind_done_inv in Hrun as (pid1 & st1 & t1 & t2 & Hs & Hl & ->).
    apply IH in Hl as (t3 & pid' & -> & Hq3).
    exists (t1 ++ t3)%list, pid'. split; [apply app_assoc|].
    apply Forall_app. split; [|exact Hq3].
    destruct (group_step_cases _ _ _ _ _ _ _ _ _ Hn Hs)
      as [E|[[E _]|[[Hq _]|(p0 & run0 & _ & ->)]]];
      try discriminate E.
    + exact (quiet_not_a_wait t1 Hq).
    + repeat constructor.
Qed.

Lemma process_group w input st :
  0 < check_parallel input ->
  process w input st =
  group_loop w (parse_cmds input) (check_parallel input)
    (seq 0 (Z.to_nat (check_parallel input + 1)))
    (repeat None (Z.to_nat (check_parallel input + 1))) st.
Proof.
  intros Hn. unfold process.
  assert (Hc : 1 <= count_char "&" input).
  { destruct (check_parallel_count input) as [E|[E _]]; lia. }
  rewrite (separator_line_not_blank input Hc). cbn [Z.eqb].
  destruct (check_parallel input =? -1) eqn:E1;
    [apply Z.eqb_eq in E1; lia|].
  destruct (check_parallel input >? 0) eqn:E2;
    [|rewrite Z.gtb_ltb in E2; apply Z.ltb_ge in E2; lia].
  unfold run_line.
  destruct (check_parallel input =? 0) eqn:E3;
    [apply Z.eqb_eq in E3; lia|]. reflexivity.
Qed.

(** X20. In a parallel line that returns, every [fork] of the line is
    issued before the first [waitpid]: the trace is the spawns (and
    error lines) of the sub-commands followed by the [parallel_cmd + 1]
    waits of the Completion Waiter. *)
Theorem parallel_spawns_precede_waits (w : world) (input : string)
  (st st' : shell) (t : list event)
  (Hgroup : 0 < check_parallel input)
  (Hrun : process w input st = (Done tt, st', t)) :
  exists t1 pid,
    t = (t1 ++ waits pid 0 (Z.to_nat (check_parallel input + 1)))%list /\
    Forall not_a_wait t1.
Proof.
  rewrite (process_group w input st Hgroup) in Hrun.
  exact (group_loop_order w _ _ Hgroup _ _ _ _ _ Hrun).
Qed.

Lemma parallel_spawns_precede_waits_witness :
  exists t1 pid,
    [ESpawn 100 ls_run; ESpawn 101 ls_run; EWait (Some 100); EWait (Some 101)]
    = (t1 ++ waits pid 0 2)%list /\
    Forall not_a_wait t1.
Proof.
  apply (parallel_spawns_precede_waits demo (line "ls & ls") initial_shell
           {| path := ["/bin"]; exit_not_called := true; forks := 2 |});
    reflexivity.
Defined.

(** X21. When a line is over, because [process] returns or because
    the [exit] built-in ends the interpreter with status 0, [waitpid]
    has been called on the process id of every child the line
    spawned. *)
Theorem spawned_children_are_awaited (w : world) (input : string)
  (st st' : shell) (r : result unit) (t : list event)
  (Hrun : process w input st = (r, st', t))
  (Hends : r = Done tt \/ r = Halt (Exit 0)) :
  forall p run, In (ESpawn p run) t -> In (EWait (Some p)) t.
Proof.
  assert (Hr : r <> Halt Fault) by (destruct Hends as [-> | ->]; discriminate).
  clear Hends. intros p run Hin.
  destruct (Z.ltb_spec 0 (check_parallel input)) as [Hn|Hn].
  - rewrite (process_group w input st Hn) in Hrun.
    apply (group_loop_awaits w _ _ Hn _
             (seq_NoDup (Z.to_nat (check_parallel input + 1)) 0)
             _ _ _ _ _ (repeat_length _ _)) with (p := p) in Hrun;
      [exact Hrun| |exact Hr|right; exists run; exact Hin].
    intros i Hi. apply in_seq in Hi. rewrite repeat_length.
    split; [lia|]. apply nth_repeat.
  - unfold process in Hrun.
    destruct (check_empty_input input =? 1);
      [injection Hrun as <- <- <-; destruct Hin|].
    destruct (check_parallel input =? -1) eqn:Eneg;
      [injection Hrun as <- <- <-; destruct Hin as [Hin|[]]; discriminate|].
    assert (E0 : check_parallel input = 0).
    { apply Z.eqb_neq in Eneg. pose proof (count_char_nonneg "&" input).
      destruct (check_parallel_count input) as [E|[E _]]; lia. }
    rewrite E0 in Hrun. cbn [Z.gtb Z.compare] in Hrun.
    destruct (_ || _);
      [injection Hrun as <- <- <-; destruct Hin as [Hin|[]]; discriminate|].
    destruct (parse_input input) as [|a0 args].
    { injection Hrun as <- <- <-. destruct Hin. }
    destruct (check_command_loop_01 a0) as [[_ Hb]|Hext].
    + rewrite (run_line_built_in w a0 args _ st Hb) in Hrun.
      pose proof (built_in_outcome_no_fork w a0 args 0 [None] st) as [_ Hq].
      rewrite Hrun in Hq. cbn [snd] in Hq. rewrite Forall_forall in Hq.
      destruct (Hq _ Hin).
    + unfold run_line in Hrun. cbn [Z.eqb] in Hrun.
      rewrite (bind_pure _ _ _ _ (check_command_run a0 args st)) in Hrun.
      rewrite Hext in Hrun. cbn [Z.eqb] in Hrun.
      cbv [bind ret get put exec_command sys_fork write_error emit] in Hrun.
      destruct (fork w (forks st)) as [|p0]; injection Hrun as <- <- <-.
      * destruct Hin as [Hin|[Hin|[Hin|[]]]]; discriminate.
      * destruct Hin as [Hin|[Hin|[]]]; [|discriminate].
        injection Hin as <- _. right. left. reflexivity.
Qed.

Lemma spawned_children_are_awaited_witness :
  In (EWait (Some 101))
    [ESpawn 100 ls_run; ESpawn 101 ls_run; EWait (Some 100); EWait (Some 101)].
Proof.
  apply (spawned_children_are_awaited demo (line "ls & ls") initial_shell
           {| path := ["/bin"]; exit_not_called := true; forks := 2 |}
           (Done tt) _ eq_refl (or_introl eq_refl) 101 ls_run).
  right. left. reflexivity.
Defined.

(* ================================================================== *)
(** ** [main] and the two read loops *)
(* ================================================================== *)

(** What one call of [getline] delivers: a line, or a failure that is
    not the end of the input.  A list of reads is what the successive
    calls of [getline] deliver in one run of [main], and its end is the
    call that finds the end of the input.  It is not the text of the
    script or of the terminal: the children share the stream and its
    offset with the interpreter (a child that reads takes lines away,
    a child that leaves through [exit] may move the offset of a script
    back), so what the next call delivers is the environment's to say.
    What the buffer pointer holds after a failure is not specified by
    the library either: the environment says whether it is null or
    which text it points to. *)
Inductive read : Type :=
| RLine (s : string)
| RFail (buffer : option string).

(** [main] adds the prompt to what the interpreter does. *)
Inductive main_event : Type :=
| Prompt                    (* printf("dash> ") *)
| Shell (e : event).

Definition MM : Type -> Type := @M shell main_event.

(** A computation of the interpreter inside [main]. *)
Definition lift {A} (m : PM A) : MM A :=
  fun st => let '(r, st', t) := m st in (r, st', map Shell t).

Definition EXIT_SUCCESS : Z := 0.

(** [read_input]: the next line of the standard input; the end of the
    input ends the interpreter with status 0, another failure is
    reported and the buffer is returned as it is. *)
Definition read_input (stdin : list read) : MM (option string * list read) :=
  match stdin with
  | [] => stop (Exit 0)
  | RLine s :: rest => ret (Some s, rest)
  | RFail buffer :: rest => lift write_error ;; ret (buffer, rest)
  end.

(** The loop of the interactive mode:
    [while (exit_not_called) { printf("dash> "); input = read_input(); process(input, &path); }] *)
Fixpoint interactive (w : world) (stdin : list read) : MM unit :=
  st <- get ;;
  if exit_not_called st then
    emit Prompt ;;
    match stdin with
    | [] => stop (Exit 0)
    | RLine s :: rest => lift (process w s) ;; interactive w rest
    | RFail buffer :: rest =>
        lift write_error ;;
        input <- deref buffer ;;
        lift (process w input) ;;
        interactive w rest
    end
  else ret tt.

(** The loop of the batch mode and what follows it:
    [while (getline(...) != -1) process(input, &path);], then [exit(0)]
    at the end of the file, otherwise an error line and the return of
    [main].  [file] is what the calls of [getline] deliver, one after
    the other, not the lines of the script. *)
Fixpoint batch (w : world) (file : list read) : MM Z :=
  match file with
  | [] => stop (Exit 0)
  | RLine s :: rest => lift (process w s) ;; batch w rest
  | RFail _ :: _ => lift write_error ;; ret EXIT_SUCCESS
  end.

(** [main]: [argc] arguments, [file] what [fopen(argv[1], "r")] gives
    (nothing when it fails), [stdin] the standard input. *)
Definition main (w : world) (argc : Z) (file : option (list read))
  (stdin : list read) : MM Z :=
  if argc =? 1 then
    interactive w stdin ;; ret EXIT_SUCCESS
  else if argc =? 2 then
    match file with
    | None => lift write_error ;; stop (Exit 1)
    | Some reads => batch w reads
    end
  else
    lift write_error ;; stop (Exit 1).

(** The loop body calls [read_input]: the loop above is the loop of the
    source with that call unfolded. *)
Lemma interactive_calls_read_input w stdin st :
  interactive w stdin st =
  (st0 <- get ;;
   if exit_not_called st0 then
     emit Prompt ;;
     got <- read_input stdin ;;
     input <- deref (fst got) ;;
     lift (process w input) ;;
     interactive w (snd got)
   else ret tt) st.
Proof.
  destruct stdin as [|[s|[s|]] rest]; cbn [interactive read_input];
    cbv [bind get emit ret stop deref lift write_error fst snd map];
    (destruct (exit_not_called st); [|reflexivity]);
    try reflexivity;
    (destruct (process w s st) as [[[u|h] st1] t1]; [|reflexivity]);
    destruct (interactive w rest st1) as [[r2 st2] t2]; reflexivity.
Qed.

(** One round of the interactive loop on a line that was read. *)
Definition interactive_round (w : world) (before : list main_event)
  (input : string) (rest : list read) (st : shell)
  : result unit * shell * list main_event :=
  match process w input st with
  | (Done _, st1, t1) =>
      let '(r, st2, t2) := interactive w rest st1 in
      (r, st2, (before ++ map Shell t1 ++ t2)%list)
  | (Halt h, st1, t1) => (Halt h, st1, (before ++ map Shell t1)%list)
  end.

Lemma interactive_step w stdin st :
  exit_not_called st = true ->
  interactive w stdin st =
  match stdin with
  | [] => (Halt (Exit 0), st, [Prompt])
  | RLine s :: rest => interactive_round w [Prompt] s rest st
  | RFail None :: _ => (Halt Fault, st, [Prompt; Shell EError])
  | RFail (Some s) :: rest =>
      interactive_round w [Prompt; Shell EError] s rest st
  end.
Proof.
  intros Hflag. unfold interactive_round.
  destruct stdin as [|[s|[s|]] rest]; cbn [interactive];
    unfold bind at 1; cbn [get]; rewrite Hflag;
    unfold bind at 1; cbn [emit].
  - reflexivity.
  - unfold bind at 1. unfold lift at 1.
    destruct (process w s st) as [[[u|h] st1] t1]; [|reflexivity].
    destruct (interactive w rest st1) as [[r2 st2] t2]. reflexivity.
  - unfold bind at 1. unfold lift at 1. cbn [write_error emit map deref].
    unfold bind at 1. cbn [ret]. unfold bind at 1. unfold lift at 1.
    destruct (process w s st) as [[[u|h] st1] t1]; [|reflexivity].
    destruct (interactive w rest st1) as [[r2 st2] t2]. reflexivity.
  - reflexivity.
Qed.

Lemma process_done_flag w input st u st1 t1 :
  process w input st = (Done u, st1, t1) ->
  exit_not_called st1 = exit_not_called st.
Proof. intros E. pose proof (process_flag w input st) as H. rewrite E in H. exact H. Qed.

(** The interactive loop is not left through its condition. *)
Lemma interactive_halts w stdin : forall st,
  exit_not_called st = true ->
  match fst (fst (interactive w stdin st)) with
  | Done _ => False
  | Halt _ => True
  end.
Proof.
  assert (Hround : forall rest,
    (forall st, exit_not_called st = true ->
       match fst (fst (interactive w rest st)) with
       | Done _ => False
       | Halt _ => True
       end) ->
    forall before s st, exit_not_called st = true ->
      match fst (fst (interactive_round w before s rest st)) with
      | Done _ => False
      | Halt _ => True
      end).
  { intros rest IH before s st Hflag. unfold interactive_round.
    destruct (process w s st) as [[[u|h] st1] t1] eqn:E.
    - apply process_done_flag in E. rewrite Hflag in E.
      specialize (IH st1 E).
      destruct (interactive w rest st1) as [[r2 st2] t2]. exact IH.
    - exact I. }
  induction stdin as [|rd rest IH]; intros st Hflag;
    rewrite (interactive_step w _ st Hflag).
  - exact I.
  - destruct rd as [s|[s|]].
    + exact (Hround rest IH _ s st Hflag).
    + exact (Hround rest IH _ s st Hflag).
    + exact I.
Qed.

(** X23. Interactive mode never leaves its read loop through the loop
    condition: started with [exit_not_called] set, [main] does not
    return, whatever [getline] delivers and however long the input is.
    The interpreter ends inside the loop, in [read_input] at the end of
    the input or in [process]. *)
Theorem interactive_mode_never_returns (w : world)
  (file : option (list read)) (stdin : list read) (st : shell)
  (Hflag : exit_not_called st = true) :
  match fst (fst (main w 1 file stdin st)) with
  | Done _ => False
  | Halt _ => True
  end.
Proof.
  unfold main. cbn [Z.eqb Pos.eqb]. unfold bind.
  pose proof (interactive_halts w stdin st Hflag) as H.
  destruct (interactive w stdin st) as [[[u|h] st1] t1]; cbn [fst] in *;
    [destruct H|exact I].
Qed.

Lemma interactive_mode_never_returns_witness :
  main demo 1 None [RLine (line "ls"); RLine (line "exit"); RLine (line "ls")]
    initial_shell
  = (Halt (Exit 0),
     {| path := ["/bin"]; exit_not_called := false; forks := 1 |},
     [Prompt; Shell (ESpawn 100 ls_run); Shell (EWait (Some 100)); Prompt]) /\
  match fst (fst (main demo 1 None [RLine (line "ls")] initial_shell)) with
  | Done _ => False
  | Halt _ => True
  end.
Proof.
  split; [reflexivity|].
  apply (interactive_mode_never_returns demo None [RLine (line "ls")]
           initial_shell).
  reflexivity.
Defined.

(* ================================================================== *)
(** ** The child with a Redirection Spec *)
(* ================================================================== *)





(* ================================================================== *)
(** ** Plain commands *)
(* ================================================================== *)

Lemma delim_args_chars c :
  is_delim delim_args c = true -> c = ">"%char \/ isspace c = true.
Proof.
  unfold delim_args. cbn [is_delim]. rewrite orb_false_r.
  destruct (Ascii.eqb_spec c " ") as [->|_]; [right; reflexivity|].
  destruct (Ascii.eqb_spec c TAB) as [->|_]; [right; reflexivity|].
  destruct (Ascii.eqb_spec c NL) as [->|_]; [right; reflexivity|].
  destruct (Ascii.eqb_spec c ">") as [->|_]; [left; reflexivity|].
  discriminate.
Qed.

(** A line that is not blank and holds no operator has a first token. *)
Lemma nonblank_has_token input :
  check_empty_input input = 0 -> count_char ">" input = 0 ->
  skip_delims input delim_args <> "".
Proof.
  induction input as [|c s IH]; [discriminate|].
  cbn [check_empty_input count_char skip_delims]. intros Hb Hc.
  pose proof (count_char_nonneg ">" s) as Hpos.
  destruct (is_delim delim_args c) eqn:Ed; [|intros Hx; discriminate Hx].
  destruct (delim_args_chars c Ed) as [->|Hs].
  - cbn [Ascii.eqb Bool.eqb] in Hc. lia.
  - rewrite Hs in Hb. apply IH; [exact Hb|].
    destruct (Ascii.eqb c ">"); lia.
Qed.

Lemma token_loop_grows token delim save arr :
  (List.length arr <= List.length (token_loop token delim save arr))%nat.
Proof.
  remember (match token with Some _ => S (String.length save) | None => O end)
    as n eqn:En.
  revert token save arr En.
  induction n as [n IH] using lt_wf_ind. intros token save arr En.
  destruct token as [tok|]; [|rewrite token_loop_done; lia].
  rewrite token_loop_step.
  destruct (strtok None delim save) as [t sv] eqn:E. cbn [fst snd].
  assert (Hlt : (match t with Some _ => S (String.length sv) | None => O end
                 < n)%nat).
  { subst n. destruct t as [tok'|]; [|lia]. apply strtok_progress in E. lia. }
  pose proof (IH _ Hlt t sv (arr ++ [tok])%list eq_refl) as H.
  rewrite length_app in H. cbn [List.length] in H. lia.
Qed.

Lemma plain_line_has_command input :
  check_empty_input input = 0 -> count_char ">" input = 0 ->
  parse_input input <> [].
Proof.
  intros Hb Hc. unfold parse_input.
  pose proof (nonblank_has_token input Hb Hc) as Hs.
  unfold strtok. destruct (skip_delims input delim_args) as [|a r];
    [congruence|].
  destruct (cut_token (String a r) delim_args) as [tok sv].
  pose proof (token_loop_grows (fst (strtok None delim_args sv)) delim_args
                (snd (strtok None delim_args sv)) [tok]) as Hg2.
  rewrite token_loop_step. cbn [app].
  destruct (token_loop _ _ _ [tok]); [cbn in Hg2; lia|discriminate].
Qed.

Lemma built_in_outcome_no_fault w a0 args parallel_cmd pid st :
  fst (fst (built_in_outcome w a0 args parallel_cmd pid st)) <> Halt Fault.
Proof.
  unfold built_in_outcome.
  destruct (strcmp0 a0 "path"); [discriminate|].
  destruct (strcmp0 a0 "exit").
  - destruct args; discriminate.
  - destruct args as [|dir [|b args']]; discriminate.
Qed.

(** X27. A line without separator and without redirection operator
    never makes the interpreter fault: it is skipped when blank, and
    otherwise its first token exists and the line is run as a built-in
    or spawned as a command. *)
Theorem plain_command_never_faults (w : world) (input : string) (st : shell)
  (Hsep : count_char "&" input = 0) (Hop : count_char ">" input = 0) :
  fst (fst (process w input st)) <> Halt Fault.
Proof.
  unfold process.
  destruct (check_empty_input_01 input) as [Hb|Hb]; rewrite Hb;
    cbn [Z.eqb Pos.eqb]; [|discriminate].
  rewrite (check_parallel_no_separator input Hsep). cbn [Z.eqb Z.gtb Z.compare].
  assert (Hr : check_redirect input = 0).
  { destruct (check_redirect_range input) as [[_ E]|[E _]]; lia. }
  rewrite Hr. cbn [Z.gtb Z.ltb Z.compare orb].
  pose proof (plain_line_has_command input Hb Hop) as Hne.
  destruct (parse_input input) as [|a0 args]; [congruence|].
  destruct (check_command_loop_01 a0) as [[_ Hin]|Hext].
  - rewrite (run_line_built_in w a0 args 0 st Hin).
    apply built_in_outcome_no_fault.
  - unfold run_line. cbn [Z.eqb].
    rewrite (bind_pure _ _ _ _ (check_command_run a0 args st)).
    rewrite Hext. cbn [Z.eqb].
    cbv [bind ret get put exec_command sys_fork write_error emit].
    destruct (fork w (forks st)); discriminate.
Qed.

Lemma plain_command_never_faults_witness :
  fst (fst (process demo (line "ls -l /tmp") initial_shell)) <> Halt Fault.
Proof.
  apply (plain_command_never_faults demo (line "ls -l /tmp") initial_shell);
    reflexivity.
Defined.

(* ================================================================== *)
(** ** The [path] built-in beyond its block *)
(* ================================================================== *)

(** [BUF_SIZE] directories, and the line that hands them to [path]. *)
Definition many_directories : list string := repeat "/d" BUF_SIZE.

Definition long_path_line : string :=
  line (unwords " " ("path" :: many_directories)).

(** C6. The [path] built-in does not install every list of arguments.
    The line made of [path] and [BUF_SIZE] directories passes the
    syntax checks as a single command without redirection,
    [parse_input], which grows its array when it is full, returns all
    its [BUF_SIZE + 1] tokens, and the vector is dispatched to
    [dash_path]; [dash_path] copies the directories into its block of
    [BUF_SIZE] pointers, which it never grows, and stores the closing
    null pointer at index [BUF_SIZE], outside the block; with more
    directories the copies themselves leave the block.  With one
    directory fewer the block holds the arguments in order. *)
Theorem path_overruns_its_block :
  check_empty_input long_path_line = 0 /\
  check_parallel long_path_line = 0 /\
  check_redirect long_path_line = 0 /\
  parse_input long_path_line = "path" :: many_directories /\
  (forall st : shell,
     check_command ("path" :: many_directories) st = (Done 1, st, []) /\
     check_path ("path" :: many_directories) st = (Done 1, st, [])) /\
  dash_path_block ("path" :: many_directories) = None /\
  (forall args : list string,
     (BUF_SIZE <= List.length args)%nat ->
     dash_path_block ("path" :: args) = None) /\
  (exists block,
     dash_path_block ("path" :: tl many_directories) = Some block /\
     block_contents block = tl many_directories).
Proof.
  repeat split; try (vm_compute; reflexivity).
  { intros args Hover. rewrite dash_path_block_spec.
    replace (_ <? _)%nat with false; [reflexivity|].
    symmetry. apply Nat.ltb_ge. exact Hover. }
  assert (Hfit : (List.length (tl many_directories) < BUF_SIZE)%nat)
    by (apply Nat.ltb_lt; vm_compute; reflexivity).
  destruct (dash_path_block_fits "path" (tl many_directories) Hfit)
    as (block & Hb & Hc).
  exists block. split; [exact Hb|]. rewrite Hc.
  exact (dash_path_tail ("path" :: tl many_directories)).
Qed.
